(** * Incremental JSON parser of Boost.Beast (experimental): basic_parser

    A shallow embedding of
    [include/boost/beast/_experimental/json/impl/basic_parser.hpp]:
    the two [write] overloads, [write_eof] and the four helpers on the
    continuation stack, together with the properties of the engine that
    the design document states. *)

From Stdlib Require Import Ascii String List Arith Bool Lia.
Import ListNotations.
Local Open Scope char_scope.
Local Open Scope list_scope.

Set Implicit Arguments.

(** ** Data model *)

(** The scoped enumeration [state] used by the [switch] of [write].
    [end] is a keyword here, hence [end_] (the source itself writes
    [array_] for the same reason). *)
Module state.
Inductive t : Set :=
  | json | element | ws | value
  | object | member | members | colon
  | array_ | string | number
  | true_1 | true_2 | true_3 | true_4
  | false_1 | false_2 | false_3 | false_4 | false_5
  | null_1 | null_2 | null_3 | null_4
  | end_.

Definition eqb (a b : t) : bool :=
    match a, b with
    | json, json | element, element | ws, ws | value, value
    | object, object | member, member | members, members | colon, colon
    | array_, array_ | string, string | number, number
    | true_1, true_1 | true_2, true_2 | true_3, true_3 | true_4, true_4
    | false_1, false_1 | false_2, false_2 | false_3, false_3
    | false_4, false_4 | false_5, false_5
    | null_1, null_1 | null_2, null_2 | null_3, null_3 | null_4, null_4
    | end_, end_ => true
    | _, _ => false
    end.
End state.

(** Modelled from the spec: [error.hpp] is not part of the sources at hand.
    The design document distinguishes "no error", "syntax error" and a
    "consumer-reported error" raised by the event sink. *)
Inductive error_code : Set :=
| success
| syntax
| consumer (code : nat).

(** [if(ec)] *)
Definition is_error (ec : error_code) : bool :=
  match ec with success => false | _ => true end.

(** Modelled from the spec: the callbacks of the event sink are declared in
    the class header, which is not part of the sources at hand; section 4.8
    of the design document lists them.  The implementation file calls seven
    of them. *)
Inductive event : Set :=
| on_object_begin_ | on_object_end_
| on_array_begin_ | on_array_end_
| on_string_begin_ | on_string_piece_ | on_string_end_
| on_number_
| on_true_ | on_false_ | on_null_.

(** The derived class reached through [impl()]: each callback receives the
    error slot by reference and may set it. *)
Class Derived (D : Type) : Type := {
  on_object_begin : D -> error_code -> D * error_code;
  on_object_end : D -> error_code -> D * error_code;
  on_array_begin : D -> error_code -> D * error_code;
  on_string_begin : D -> error_code -> D * error_code;
  on_true : D -> error_code -> D * error_code;
  on_false : D -> error_code -> D * error_code;
  on_null : D -> error_code -> D * error_code
}.

(** Every effect of the engine, in the order in which it happens: cursor
    advances, stack operations, assignments to the error slot and calls of
    the sink (with the value of the error slot when the call returns). *)
Inductive action : Set :=
| Adv (n : nat)
| Push (s : state.t)
| Pop
| Replace (s : state.t)
| Assign (e : error_code)
| Call (ev : event) (e : error_code).

(** The parser object together with what a call of [write] works on:
    - [st_stack_]: the continuation stack, the head of the list being
      [st_stack_.back()];
    - [impl]: the derived object;
    - [p]: the bytes of the chunk from the read position [p] up to [p1];
    - [ec]: the caller's error slot;
    - [log]: the history of effects, the most recent one first (a ghost
      field, never read). *)
Record machine (D : Type) : Type := Machine {
  st_stack_ : list state.t;
  impl : D;
  p : list ascii;
  ec : error_code;
  log : list action
}.

Arguments Machine {D} _ _ _ _ _.

(** The sink calls of a history, in the order in which they were made. *)
Fixpoint calls (l : list action) : list (event * error_code) :=
  match l with
  | [] => []
  | Call ev e :: l' => calls l' ++ [(ev, e)]
  | _ :: l' => calls l'
  end.

Definition events (l : list action) : list event := map fst (calls l).

(** ** A state and failure monad

    A computation either returns a value and a machine, or stops the
    program: a failed [BOOST_ASSERT], or a read outside of the chunk. *)
Inductive failure : Set :=
| assertion_failed
| read_past_end
| out_of_fuel.

Inductive result (D A : Type) : Type :=
| Val (a : A) (m : machine D)
| Crash (f : failure).

Arguments Val {D A} _ _.
Arguments Crash {D A} _.

Definition M (D A : Type) : Type := machine D -> result D A.

Definition ret {D A} (a : A) : M D A := fun m => Val a m.

Definition bind {D A B} (c : M D A) (k : A -> M D B) : M D B :=
  fun m => match c m with
           | Val a m' => k a m'
           | Crash f => Crash f
           end.

Notation "x <- c ;; k" := (bind c (fun x => k))
  (at level 61, c at next level, right associativity).
Notation "c ;; k" := (bind c (fun _ => k))
  (at level 61, right associativity).

(** The bytes of a string literal. *)
Definition bytes (s : String.string) : list ascii := list_ascii_of_string s.

(** ** detail::parser_base *)

Definition is_ws (c : ascii) : bool :=
  (c =? " ") || (c =? "013") || (c =? "010") || (c =? "009").

(** [static_cast<unsigned char>(c - '0') < 10]: the difference is taken
    modulo 256. *)
Definition is_digit (c : ascii) : bool :=
  Nat.ltb ((nat_of_ascii c + 256 - 48) mod 256) 10.

(** ** The helpers on the continuation stack *)

Section Parser.
Context {D : Type} `{Derived D}.

Definition current_state : M D state.t :=
  fun m => Val (match st_stack_ m with
                | s :: _ => s
                | [] => state.end_
                end) m.

Definition push_state (st : state.t) : M D unit :=
  fun m => Val tt (Machine (st :: st_stack_ m) (impl m) (p m) (ec m)
                           (Push st :: log m)).

Definition pop_state : M D unit :=
  fun m => match st_stack_ m with
           | [] => Crash assertion_failed
           | _ :: below =>
               Val tt (Machine below (impl m) (p m) (ec m) (Pop :: log m))
           end.

Definition replace_state (st : state.t) : M D unit :=
  fun m => match st_stack_ m with
           | [] => Crash assertion_failed
           | _ :: below =>
               Val tt (Machine (st :: below) (impl m) (p m) (ec m)
                               (Replace st :: log m))
           end.

(** ** The cursor and the error slot *)

(** [p >= p1] *)
Definition at_end : M D bool :=
  fun m => Val (match p m with [] => true | _ => false end) m.

(** [p + n <= p1] *)
Definition avail (n : nat) : M D bool :=
  fun m => Val (Nat.leb n (length (p m))) m.

(** [p[i]]; reading at or beyond [p1] leaves the chunk. *)
Definition peek (i : nat) : M D ascii :=
  fun m => match nth_error (p m) i with
           | Some c => Val c m
           | None => Crash read_past_end
           end.

(** [p = p + n] *)
Definition advance (n : nat) : M D unit :=
  fun m => Val tt (Machine (st_stack_ m) (impl m) (skipn n (p m)) (ec m)
                           (Adv n :: log m)).

Definition assign (e : error_code) : M D unit :=
  fun m => Val tt (Machine (st_stack_ m) (impl m) (p m) e
                           (Assign e :: log m)).

(** [if(ec)] *)
Definition failed : M D bool :=
  fun m => Val (is_error (ec m)) m.

(** [impl().on_xxx(ec)] *)
Definition call (cb : D -> error_code -> D * error_code) (ev : event)
  : M D unit :=
  fun m => let (d, e) := cb (impl m) (ec m) in
           Val tt (Machine (st_stack_ m) d (p m) e (Call ev e :: log m)).

(** ** The arms of the switch of [write]

    An arm ends in [goto loop], in [break] or in [return]; an arm that
    falls through continues with the next arm. *)
Inductive flow : Set := goto_loop | break_ | return_.

(** [case state::ws]: the inner [while(p < p1)]. *)
Fixpoint ws_while (rest : list ascii) : M D flow :=
  match rest with
  | [] => ret break_
  | c :: rest' =>
      if negb (is_ws c) then pop_state ;; ret goto_loop
      else advance 1 ;; ws_while rest'
  end.

Definition case_ws : M D flow := fun m => ws_while (p m) m.

(** The ten labels [case '0': ... case '9':]. *)
Definition digit_label (c : ascii) : bool :=
  existsb (Ascii.eqb c) ["0"; "1"; "2"; "3"; "4"; "5"; "6"; "7"; "8"; "9"].

(** [case state::value].  The fast paths read [p[1]], [p[2]], ... at once
    here, where the source stops at the first mismatch: all of them lie
    inside the chunk once [p + n <= p1] holds. *)
Definition case_value : M D flow :=
  e <- at_end ;;
  if e then ret break_ else
  c <- peek 0 ;;
  if c =? "{" then
    advance 1 ;; replace_state state.object ;;
    call on_object_begin on_object_begin_ ;;
    f <- failed ;; if f then ret return_ else ret goto_loop
  else if c =? "[" then
    advance 1 ;; replace_state state.array_ ;;
    call on_array_begin on_array_begin_ ;;
    ret goto_loop
  else if c =? "034" (* the double quote *) then
    advance 1 ;; replace_state state.string ;;
    call on_string_begin on_string_begin_ ;;
    ret goto_loop
  else if digit_label c then
    advance 1 ;; replace_state state.number ;; ret goto_loop
  else if c =? "t" then
    a <- avail 4 ;;
    if a then
      c1 <- peek 1 ;; c2 <- peek 2 ;; c3 <- peek 3 ;;
      if negb (c1 =? "r") || negb (c2 =? "u") || negb (c3 =? "e") then
        assign syntax ;; ret return_
      else
        advance 4 ;; replace_state state.true_4 ;; ret goto_loop
    else
      advance 1 ;; replace_state state.true_1 ;; ret goto_loop
  else if c =? "f" then
    a <- avail 5 ;;
    if a then
      c1 <- peek 1 ;; c2 <- peek 2 ;; c3 <- peek 3 ;; c4 <- peek 4 ;;
      if negb (c1 =? "a") || negb (c2 =? "l") || negb (c3 =? "s")
         || negb (c4 =? "e") then
        assign syntax ;; ret return_
      else
        advance 4 ;; replace_state state.false_5 ;; ret goto_loop
    else
      advance 1 ;; replace_state state.false_1 ;; ret goto_loop
  else if c =? "n" then
    a <- avail 4 ;;
    if a then
      c1 <- peek 1 ;; c2 <- peek 2 ;; c3 <- peek 3 ;;
      if negb (c1 =? "u") || negb (c2 =? "l") || negb (c3 =? "l") then
        assign syntax ;; ret return_
      else
        advance 4 ;; replace_state state.null_4 ;; ret goto_loop
    else
      advance 1 ;; replace_state state.null_1 ;; ret goto_loop
  else
    assign syntax ;; ret return_.

Definition case_member : M D flow :=
  replace_state state.members ;;
  push_state state.element ;;
  push_state state.colon ;;
  push_state state.ws ;;
  push_state state.string ;;
  ret goto_loop.

Definition case_object : M D flow :=
  e <- at_end ;;
  if e then ret break_ else
  c <- peek 0 ;;
  if is_ws c then
    advance 1 ;; push_state state.ws ;; ret goto_loop
  else if c =? "}" then
    advance 1 ;;
    call on_object_end on_object_end_ ;;
    f <- failed ;;
    if f then ret return_ else pop_state ;; ret goto_loop
  else
    replace_state state.member ;; case_member.

(** [case state::members] dereferences [p] without comparing it with
    [p1] first. *)
Definition case_members : M D flow :=
  c <- peek 0 ;;
  if negb (c =? "}") then ret break_ else
  advance 1 ;;
  call on_object_end on_object_end_ ;;
  f <- failed ;;
  if f then ret return_ else ret break_.

Definition case_colon : M D flow :=
  e <- at_end ;;
  if e then ret break_ else
  c <- peek 0 ;;
  if negb (c =? ":") then assign syntax ;; ret return_ else
  advance 1 ;; pop_state ;; ret goto_loop.

(** One arm of a literal matched byte by byte: expect [c], move to
    [next] and fall through to [k]. *)
Definition literal_arm (c : ascii) (next : state.t) (k : M D flow)
  : M D flow :=
  e <- at_end ;;
  if e then ret break_ else
  x <- peek 0 ;;
  if negb (x =? c) then assign syntax ;; ret return_ else
  advance 1 ;; replace_state next ;; k.

(** The last arm of a literal: notify the sink and pop. *)
Definition literal_end (cb : D -> error_code -> D * error_code)
  (ev : event) : M D flow :=
  call cb ev ;;
  f <- failed ;;
  if f then ret return_ else pop_state ;; ret goto_loop.

Definition case_true_4 : M D flow := literal_end on_true on_true_.
Definition case_true_3 : M D flow := literal_arm "e" state.true_4 case_true_4.
Definition case_true_2 : M D flow := literal_arm "u" state.true_3 case_true_3.
Definition case_true_1 : M D flow := literal_arm "r" state.true_2 case_true_2.

Definition case_false_5 : M D flow := literal_end on_false on_false_.
Definition case_false_4 : M D flow :=
  literal_arm "e" state.false_5 case_false_5.
Definition case_false_3 : M D flow :=
  literal_arm "s" state.false_4 case_false_4.
Definition case_false_2 : M D flow :=
  literal_arm "l" state.false_3 case_false_3.
Definition case_false_1 : M D flow :=
  literal_arm "a" state.false_2 case_false_2.

Definition case_null_4 : M D flow := literal_end on_null on_null_.
Definition case_null_3 : M D flow := literal_arm "l" state.null_4 case_null_4.
Definition case_null_2 : M D flow := literal_arm "l" state.null_3 case_null_3.
Definition case_null_1 : M D flow := literal_arm "u" state.null_2 case_null_2.

(** [switch(current_state())] *)
Definition dispatch : M D flow :=
  s <- current_state ;;
  match s with
  | state.json => replace_state state.element ;; ret goto_loop
  | state.element =>
      replace_state state.ws ;;
      push_state state.value ;;
      push_state state.ws ;;
      ret goto_loop
  | state.ws => case_ws
  | state.value => case_value
  | state.object => case_object
  | state.member => case_member
  | state.members => case_members
  | state.colon => case_colon
  | state.array_ => ret break_
  | state.string => ret break_
  | state.number => ret break_
  | state.true_1 => case_true_1
  | state.true_2 => case_true_2
  | state.true_3 => case_true_3
  | state.true_4 => case_true_4
  | state.false_1 => case_false_1
  | state.false_2 => case_false_2
  | state.false_3 => case_false_3
  | state.false_4 => case_false_4
  | state.false_5 => case_false_5
  | state.null_1 => case_null_1
  | state.null_2 => case_null_2
  | state.null_3 => case_null_3
  | state.null_4 => case_null_4
  | state.end_ => ret break_
  end.

(** [loop: switch ... goto loop]: the jumps back are counted by [fuel]. *)
Fixpoint loop (fuel : nat) : M D unit :=
  match fuel with
  | 0 => fun _ => Crash out_of_fuel
  | S fuel' =>
      fl <- dispatch ;;
      match fl with
      | goto_loop => loop fuel'
      | break_ | return_ => ret tt
      end
  end.

(** A bound on the number of jumps: sixteen for each byte left, and for
    each state on the stack the jumps it can cause without a byte. *)
Definition weight (s : state.t) : nat :=
  match s with
  | state.json => 5
  | state.element => 4
  | state.object | state.member => 9
  | _ => 1
  end.

Definition measure (m : machine D) : nat :=
  16 * length (p m) + list_sum (map weight (st_stack_ m)).

Definition run : M D unit := fun m => loop (S (measure m)) m.

(** ** basic_parser *)

(** The constructor. *)
Definition basic_parser (d : D) : machine D :=
  Machine [state.json] d [] success [].

Definition boost_assert (b : bool) : M D unit :=
  fun m => if b then Val tt m else Crash assertion_failed.

(** [write(boost::asio::const_buffer buffer, error_code& ec)] *)
Definition write (buffer : list ascii) : M D unit :=
  (fun m => Val tt (Machine (st_stack_ m) (impl m) buffer (ec m) (log m))) ;;
  assign success ;;
  s <- current_state ;;
  boost_assert (negb (state.eqb s state.end_)) ;;
  run.

(** [write(ConstBufferSequence const& buffers, error_code& ec)] *)
Fixpoint write_buffers (buffers : list (list ascii)) : M D unit :=
  match buffers with
  | [] => ret tt
  | b :: buffers' =>
      write b ;;
      f <- failed ;;
      if f then ret tt else write_buffers buffers'
  end.

(** [write_eof(error_code& ec)] *)
Definition write_eof : M D unit :=
  s <- current_state ;;
  match s with
  | state.ws | state.end_ => assign success
  | _ => assign syntax
  end.

(** Feeding the chunks in order and then signalling the end of the input,
    which a caller does only when no chunk failed. *)
Definition feed_and_finish (buffers : list (list ascii)) : M D unit :=
  write_buffers buffers ;;
  f <- failed ;;
  if f then ret tt else write_eof.

End Parser.

(** A sink that accepts everything and keeps nothing. *)
#[export] Instance quiet : Derived unit := {
  on_object_begin d e := (d, e);
  on_object_end d e := (d, e);
  on_array_begin d e := (d, e);
  on_string_begin d e := (d, e);
  on_true d e := (d, e);
  on_false d e := (d, e);
  on_null d e := (d, e)
}.

(** A sink that fails its [n]-th call (counting from zero) with code 7. *)
#[export] Instance failing_at : Derived nat :=
  let cb := fun (n : nat) (e : error_code) =>
              match n with 0 => (0, consumer 7) | S k => (k, e) end in
  {| on_object_begin := cb; on_object_end := cb; on_array_begin := cb;
     on_string_begin := cb; on_true := cb; on_false := cb; on_null := cb |}.



(** ** Vocabulary of the statements *)

Section Vocabulary.
Context {D : Type} `{Derived D}.

(** The same machine with an older history [l] behind its own. *)
Definition relog (l : list action) (m : machine D) : machine D :=
  Machine (st_stack_ m) (impl m) (p m) (ec m) (log m ++ l).

Definition relog_result {A} (l : list action) (r : result D A)
  : result D A :=
  match r with
  | Val a m => Val a (relog l m)
  | Crash f => Crash f
  end.

(** A computation that never reads the history. *)
Definition log_free {A} (c : M D A) : Prop :=
  forall m l, c (relog l m) = relog_result l (c m).

(** The same machine with the bytes [b] behind those of its chunk. *)
Definition more (b : list ascii) (m : machine D) : machine D :=
  Machine (st_stack_ m) (impl m) (p m ++ b) (ec m) (log m).

(** The same machine in front of a fresh chunk [b]. *)
Definition refill (b : list ascii) (m : machine D) : machine D :=
  Machine (st_stack_ m) (impl m) b (ec m) (log m).

(** The machine on which the loop of [write] starts: the cursor at the
    beginning of [buffer] and the error slot cleared. *)
Definition armed (buffer : list ascii) (m : machine D) : machine D :=
  Machine (st_stack_ m) (impl m) buffer success (Assign success :: log m).

(** A sink call that set the error slot. *)
Definition failing (a : action) : bool :=
  match a with Call _ e => is_error e | _ => false end.

(** A history without any failing call. *)
Definition clean (l : list action) : bool :=
  forallb (fun a => negb (failing a)) l.

(** The most recent effect is a failing call, the only one, and its error
    is in the slot. *)
Definition sealed (m : machine D) : Prop :=
  exists ev e before,
    log m = Call ev e :: before /\ is_error e = true /\
    ec m = e /\ clean before = true.

(** The placeholder states, in which [write] leaves at once. *)
Definition parked (m : machine D) : Prop :=
  match st_stack_ m with
  | state.array_ :: _ | state.string :: _ | state.number :: _ => True
  | _ => False
  end.

Definition settled (m : machine D) : Prop :=
  clean (log m) = true \/ sealed m.

(** The states of the literals. *)
Definition literal_state (s : state.t) : bool :=
  match s with
  | state.true_1 | state.true_2 | state.true_3 | state.true_4
  | state.false_1 | state.false_2 | state.false_3 | state.false_4
  | state.false_5
  | state.null_1 | state.null_2 | state.null_3 | state.null_4 => true
  | _ => false
  end.

(** The stacks that the loop of [write] can meet in a parser built by the
    constructor: below a placeholder state anything, otherwise the
    top-level value between its two runs of whitespace. *)
Inductive reach : list state.t -> Prop :=
| reach_end : reach []
| reach_array below : reach (state.array_ :: below)
| reach_string below : reach (state.string :: below)
| reach_number below : reach (state.number :: below)
| reach_json : reach [state.json]
| reach_element : reach [state.element]
| reach_ws : reach [state.ws]
| reach_value : reach [state.value; state.ws]
| reach_object : reach [state.object; state.ws]
| reach_ws_value : reach [state.ws; state.value; state.ws]
| reach_ws_object : reach [state.ws; state.object; state.ws]
| reach_literal s : literal_state s = true -> reach [s; state.ws].

(** A machine inside the loop: a reachable stack, and an error in the slot
    only in front of a placeholder state. *)
Definition steady (m : machine D) : Prop :=
  reach (st_stack_ m) /\ (ec m = success \/ parked m).

(** Two outcomes that a caller cannot tell apart: the same error, the same
    derived object, the same sink calls, and, without an error, the same
    stack, or an empty stack against the lone trailing whitespace. *)
Definition agree (r1 r2 : result D unit) : Prop :=
  match r1, r2 with
  | Val _ m1, Val _ m2 =>
      ec m1 = ec m2 /\ impl m1 = impl m2 /\
      calls (log m1) = calls (log m2) /\
      (ec m2 = success ->
       st_stack_ m1 = st_stack_ m2 \/
       (st_stack_ m1 = [] /\ st_stack_ m2 = [state.ws]))
  | Crash f1, Crash f2 => f1 = f2
  | _, _ => False
  end.

(** What the parser does with a further chunk [b] after a call of [write]
    that left it as [m]: nothing when that call failed or emptied the
    stack, otherwise the loop again. *)
Definition resume (b : list ascii) (m : machine D) : result D unit :=
  if is_error (ec m) then Val tt m
  else match st_stack_ m with
       | [] => Val tt m
       | _ => run (refill b m)
       end.

(** The value state in front of the first byte of a literal that the
    chunk does not hold in full. *)
Definition slow_start (m : machine D) : Prop :=
  exists c r,
    st_stack_ m = [state.value; state.ws] /\ p m = c :: r /\
    ((c = "t" \/ c = "n") /\ length r < 3 \/ c = "f" /\ length r < 4).

(** The number of bytes by which a history moved the cursor. *)
Fixpoint adv_total (l : list action) : nat :=
  match l with
  | [] => 0
  | Adv n :: l' => n + adv_total l'
  | _ :: l' => adv_total l'
  end.

(** The same machine when the caller's error slot holds [e]. *)
Definition with_ec (e : error_code) (m : machine D) : machine D :=
  Machine (st_stack_ m) (impl m) (p m) e (log m).

End Vocabulary.

(** ** Termination of the loop *)

Ltac split_machine m :=
  let stk := fresh "stk" in
  let d := fresh "d" in
  let rest := fresh "rest" in
  let e := fresh "e" in
  let l := fresh "l" in
  destruct m as [stk d rest e l].

Ltac unfold_arms :=
  unfold case_value, case_object, case_member, case_members,
    case_colon, case_true_1, case_true_2, case_true_3, case_true_4,
    case_false_1, case_false_2, case_false_3, case_false_4, case_false_5,
    case_null_1, case_null_2, case_null_3, case_null_4,
    literal_arm, literal_end, bind, ret, call, failed, at_end, peek,
    avail, advance, assign, replace_state, push_state, pop_state.

Ltac branches :=
  repeat (cbn -[Nat.mul]; match goal with
    | |- context [match ?cb ?d ?e with pair _ _ => _ end] =>
        destruct (cb d e)
    | |- context [if ?b then _ else _] => destruct b eqn:?
    end).

Ltac unfold_arms_in E :=
  unfold case_value, case_object, case_member, case_members,
    case_colon, case_true_1, case_true_2, case_true_3, case_true_4,
    case_false_1, case_false_2, case_false_3, case_false_4, case_false_5,
    case_null_1, case_null_2, case_null_3, case_null_4,
    literal_arm, literal_end, bind, ret, call, failed, at_end, peek,
    avail, advance, assign, replace_state, push_state, pop_state in E.

Ltac branches_in E :=
  repeat (cbn in E; match type of E with
    | context [match ?cb ?d ?e with pair _ _ => _ end] =>
        destruct (cb d e) eqn:?
    | context [if ?b then _ else _] => destruct b eqn:?
    end).

Ltac rewrite_tests :=
  repeat match goal with
    | Hb : ?x = _ |- context [?x] => rewrite Hb
    end.

Section Termination.
Context {D : Type} `{Derived D}.

Lemma ws_while_decreases (rest : list ascii) :
  forall stk (d : D) e l m',
    ws_while rest (Machine stk d rest e l) = Val goto_loop m' ->
    measure m' < measure (Machine stk d rest e l).
Proof.
  induction rest as [|c rest IH]; intros stk d e l m' E.
  - discriminate.
  - cbn in E. destruct (is_ws c); cbn in E.
    + unfold bind, advance in E. cbn in E.
      apply IH in E. unfold measure in *. cbn in *. lia.
    + unfold bind, pop_state in E. cbn in E.
      destruct stk as [|s stk]; [discriminate|].
      inversion E; subst. unfold measure. cbn.
      destruct s; cbn; lia.
Qed.

Lemma dispatch_decreases (m m' : machine D) :
  dispatch m = Val goto_loop m' -> measure m' < measure m.
Proof.
  split_machine m.
  destruct stk as [|s stk]; [discriminate|].
  destruct s; try discriminate;
    try (apply ws_while_decreases);
    unfold dispatch, bind, current_state; cbn -[Nat.mul];
    intros E; revert E.
  all: unfold_arms; unfold measure.
  all: destruct rest as [|c0 [|c1 [|c2 [|c3 [|c4 rest]]]]].
  all: branches.
  all: try discriminate.
  all: intros E; inversion E; subst; cbn -[Nat.mul]; lia.
Qed.

Lemma loop_fuel (n : nat) :
  forall (m : machine D) n',
    measure m < n -> measure m < n' -> loop n m = loop n' m.
Proof.
  induction n as [|n IH]; intros m n' Hn Hn'; [lia|].
  destruct n' as [|n']; [lia|].
  cbn [loop]. unfold bind.
  destruct (dispatch m) as [fl m'|f] eqn:E; [|reflexivity].
  destruct fl; try reflexivity.
  apply dispatch_decreases in E. apply IH; lia.
Qed.

(** The loop as its own unfolding: one turn of the switch, then again. *)
Lemma run_step (m : machine D) :
  run m = match dispatch m with
          | Val goto_loop m' => run m'
          | Val _ m' => Val tt m'
          | Crash f => Crash f
          end.
Proof.
  unfold run at 1. cbn [loop]. unfold bind.
  destruct (dispatch m) as [fl m'|f] eqn:E; [|reflexivity].
  destruct fl; try reflexivity.
  apply dispatch_decreases in E. unfold run. apply loop_fuel; lia.
Qed.

Lemma ws_while_crash (rest : list ascii) :
  forall stk (d : D) e l f,
    ws_while rest (Machine stk d rest e l) = Crash f -> stk = [].
Proof.
  induction rest as [|c rest IH]; intros stk d e l f E.
  - discriminate.
  - cbn in E. destruct (is_ws c); cbn in E.
    + unfold bind, advance in E. cbn in E. now apply IH in E.
    + unfold bind, pop_state in E. cbn in E.
      destruct stk; [reflexivity | discriminate].
Qed.

(** The only way for a turn of the switch to stop the program is the
    unguarded read of [case state::members] at the end of the chunk. *)
Lemma dispatch_crash (m : machine D) (f : failure) :
  dispatch m = Crash f ->
  f = read_past_end /\ p m = [] /\
  exists below, st_stack_ m = state.members :: below.
Proof.
  split_machine m.
  destruct stk as [|s stk]; [discriminate|].
  destruct s; try discriminate;
    try (intros E; apply ws_while_crash in E; discriminate);
    unfold dispatch, bind, current_state; cbn; intros E; revert E.
  all: unfold_arms.
  all: destruct rest as [|c0 [|c1 [|c2 [|c3 [|c4 rest]]]]].
  all: branches.
  all: try discriminate.
  all: intros E; inversion E; subst; cbn; eauto.
Qed.

(** The bound on the jumps is never reached: [write] always comes back,
    or stops on a failure of the program itself. *)
Lemma run_fuel (m : machine D) : run m <> Crash out_of_fuel.
Proof.
  remember (measure m) as n eqn:Hn.
  revert m Hn. induction n as [n IH] using lt_wf_ind. intros m Hn.
  rewrite run_step.
  destruct (dispatch m) as [fl m'|f] eqn:E.
  - destruct fl; try discriminate.
    apply dispatch_decreases in E. eapply IH; [|reflexivity]. lia.
  - apply dispatch_crash in E. destruct E as [-> _]. discriminate.
Qed.

End Termination.

(** ** The history is write-only *)

Section LogFree.
Context {D : Type} `{Derived D}.

Local Abbreviation lf := (@log_free D _).

Lemma log_free_ret {A} (a : A) : lf (ret (D := D) a).
Proof. intros m l. reflexivity. Qed.

Lemma log_free_bind {A B} (c : M D A) (k : A -> M D B) :
  lf c -> (forall a, lf (k a)) -> lf (bind c k).
Proof.
  intros Hc Hk m l. unfold bind. rewrite Hc.
  destruct (c m) as [a m'|f]; cbn; [apply Hk | reflexivity].
Qed.

Lemma log_free_if {A} (b : bool) (c1 c2 : M D A) :
  lf c1 -> lf c2 -> lf (if b then c1 else c2).
Proof. now destruct b. Qed.

Lemma log_free_current_state : lf current_state.
Proof. intros m l. reflexivity. Qed.

Lemma log_free_push_state st : lf (push_state st).
Proof. intros m l. reflexivity. Qed.

Lemma log_free_pop_state : lf pop_state.
Proof. intros [[|s stk] d r e l0] l; reflexivity. Qed.

Lemma log_free_replace_state st : lf (replace_state st).
Proof. intros [[|s stk] d r e l0] l; reflexivity. Qed.

Lemma log_free_at_end : lf at_end.
Proof. intros m l. reflexivity. Qed.

Lemma log_free_avail n : lf (avail n).
Proof. intros m l. reflexivity. Qed.

Lemma log_free_peek i : lf (peek i).
Proof.
  intros m l. unfold peek. cbn. now destruct (nth_error (p m) i).
Qed.

Lemma log_free_advance n : lf (advance n).
Proof. intros m l. reflexivity. Qed.

Lemma log_free_assign e : lf (assign e).
Proof. intros m l. reflexivity. Qed.

Lemma log_free_failed : lf failed.
Proof. intros m l. reflexivity. Qed.

Lemma log_free_call cb ev : lf (call cb ev).
Proof.
  intros m l. unfold call. cbn. now destruct (cb (impl m) (ec m)).
Qed.

Lemma log_free_boost_assert b : lf (boost_assert b).
Proof. intros m l. unfold boost_assert. now destruct b. Qed.

Ltac log_free_tac :=
  repeat first
    [ apply log_free_ret
    | apply log_free_current_state
    | apply log_free_push_state
    | apply log_free_pop_state
    | apply log_free_replace_state
    | apply log_free_at_end
    | apply log_free_avail
    | apply log_free_peek
    | apply log_free_advance
    | apply log_free_assign
    | apply log_free_failed
    | apply log_free_call
    | apply log_free_boost_assert
    | apply log_free_if
    | apply log_free_bind; [|intro] ].

Lemma log_free_ws_while rest : lf (ws_while rest).
Proof.
  induction rest as [|c rest IH]; cbn [ws_while]; log_free_tac. exact IH.
Qed.

Lemma log_free_dispatch : lf dispatch.
Proof.
  unfold dispatch. apply log_free_bind; [apply log_free_current_state|].
  intros s.
  destruct s;
    unfold case_value, case_object, case_member, case_members,
      case_colon, case_true_1, case_true_2, case_true_3, case_true_4,
      case_false_1, case_false_2, case_false_3, case_false_4, case_false_5,
      case_null_1, case_null_2, case_null_3, case_null_4,
      literal_arm, literal_end;
    log_free_tac.
  intros m l. unfold case_ws. cbn. apply log_free_ws_while.
Qed.

Lemma log_free_loop n : lf (loop n).
Proof.
  induction n as [|n IH]; cbn [loop]; [intros m l; reflexivity|].
  apply log_free_bind; [apply log_free_dispatch|].
  intros fl. destruct fl; log_free_tac. exact IH.
Qed.

Lemma log_free_run : lf run.
Proof. intros m l. unfold run. apply log_free_loop. Qed.

Lemma log_free_write buffer : lf (write buffer).
Proof.
  unfold write. log_free_tac.
  - intros m l. reflexivity.
  - apply log_free_run.
Qed.

Lemma log_free_write_eof : lf write_eof.
Proof.
  unfold write_eof. log_free_tac. destruct a; log_free_tac.
Qed.

(** A computation that never reads the history only puts new effects in
    front of it. *)
Lemma log_free_grows {A} (c : M D A) (m m' : machine D) (a : A) :
  lf c -> c m = Val a m' -> exists l, log m' = l ++ log m.
Proof.
  intros Hc E.
  assert (Hm : m = relog (log m)
                 (Machine (st_stack_ m) (impl m) (p m) (ec m) [])).
  { now destruct m. }
  rewrite Hm in E. rewrite Hc in E.
  destruct (c _) as [a0 m0|f]; [|discriminate].
  inversion E; subst. now exists (log m0).
Qed.

(** [write] is its loop on the armed machine, entered only when the
    stack is not in the end state. *)
Lemma write_run (buffer : list ascii) (m : machine D) :
  write buffer m =
  match st_stack_ m with
  | [] | state.end_ :: _ => Crash assertion_failed
  | _ => run (armed buffer m)
  end.
Proof.
  split_machine m. destruct stk as [|s stk]; [reflexivity|].
  destruct s; reflexivity.
Qed.

End LogFree.

(** ** Single turns of the switch *)

Lemma digit_label_is_digit (c : ascii) : digit_label c = is_digit c.
Proof. destruct c as [[] [] [] [] [] [] [] []]; reflexivity. Qed.

Section Turns.
Context {D : Type} `{Derived D}.


(** C2 (what the code does). With the whole literal in the chunk, [true]
    and [null] move the cursor past their four bytes, whereas [false]
    moves it by four bytes only and reaches [false_5] with its last byte
    still unread. *)
Theorem literal_fast_path_advance (stk : list state.t) (d : D)
  (r : list ascii) (e : error_code) (l : list action) :
  dispatch (Machine (state.value :: stk) d (bytes "true" ++ r) e l)
  = Val goto_loop (Machine (state.true_4 :: stk) d r e
                     (Replace state.true_4 :: Adv 4 :: l)) /\
  dispatch (Machine (state.value :: stk) d (bytes "null" ++ r) e l)
  = Val goto_loop (Machine (state.null_4 :: stk) d r e
                     (Replace state.null_4 :: Adv 4 :: l)) /\
  dispatch (Machine (state.value :: stk) d (bytes "false" ++ r) e l)
  = Val goto_loop (Machine (state.false_5 :: stk) d ("e" :: r) e
                     (Replace state.false_5 :: Adv 4 :: l)).
Proof. repeat split. Qed.

(** C3 (as amended). In the value state: no byte left suspends without an
    error; a decimal digit is consumed and the value state is replaced by
    the number state; a byte that is none of the braces, bracket, quote,
    digits, minus sign, [t], [f], [n] is a syntax error and is not
    consumed. *)
Theorem value_dispatch (stk : list state.t) (d : D) (e : error_code)
  (l : list action) :
  dispatch (Machine (state.value :: stk) d [] e l)
  = Val break_ (Machine (state.value :: stk) d [] e l) /\
  (forall c r, is_digit c = true ->
     dispatch (Machine (state.value :: stk) d (c :: r) e l)
     = Val goto_loop (Machine (state.number :: stk) d r e
                        (Replace state.number :: Adv 1 :: l))) /\
  (forall c r, is_digit c = false ->
     ~ In c ["{"; "["; "034"; "-"; "t"; "f"; "n"] ->
     dispatch (Machine (state.value :: stk) d (c :: r) e l)
     = Val return_ (Machine (state.value :: stk) d (c :: r) syntax
                      (Assign syntax :: l))).
Proof.
  split; [reflexivity|]. split.
  - intros c r Hd.
    unfold dispatch, bind, current_state; cbn -[digit_label].
    unfold case_value, bind, at_end, peek; cbn -[digit_label].
    rewrite digit_label_is_digit, Hd.
    repeat match goal with
      | |- context [if (c =? ?x) then _ else _] =>
          destruct (Ascii.eqb_spec c x); [subst; discriminate|]
      end.
    reflexivity.
  - intros c r Hd Hn.
    unfold dispatch, bind, current_state; cbn -[digit_label].
    unfold case_value, bind, at_end, peek; cbn -[digit_label].
    rewrite digit_label_is_digit, Hd.
    repeat match goal with
      | |- context [if (c =? ?x) then _ else _] =>
          destruct (Ascii.eqb_spec c x);
          [subst; exfalso; apply Hn; cbn; tauto|]
      end.
    reflexivity.
Qed.


(** The arm of the members state by itself is not guarded: were it on top
    with no byte left in the chunk, [write] would read the byte at [p1].
    No parser built by the constructor brings it to the top (see
    [exhaustion_suspends] below). *)
Lemma members_arm_is_unguarded (below : list state.t) (d : D)
  (p0 : list ascii) (e : error_code) (l : list action) :
  write [] (Machine (state.members :: below) d p0 e l)
  = Crash read_past_end.
Proof. reflexivity. Qed.

(** C10. [write] assigns "no error" to the error slot before anything
    else, so that what it does is the same whatever the slot held; and
    a parser that reported a syntax error takes the next chunk as if
    nothing had happened. *)
Theorem write_forgets_previous_error :
  (forall (buffer : list ascii) (m : machine D) (e : error_code),
     write buffer (with_ec e m) = write buffer m) /\
  (forall (buffer : list ascii) (m m' : machine D),
     write buffer m = Val tt m' ->
     exists l, log m' = l ++ Assign success :: log m) /\
  (forall d : D,
     exists m1,
       write (bytes "x") (basic_parser d) = Val tt m1 /\
       ec m1 = syntax /\
       exists m2,
         write (bytes "7") m1 = Val tt m2 /\
         ec m2 = success /\
         st_stack_ m2 = [state.number; state.ws]).
Proof.
  split; [|split].
  - intros buffer m e. reflexivity.
  - intros buffer m m' E.
    rewrite write_run in E.
    destruct (st_stack_ m) as [|s stk]; [discriminate|].
    destruct s; try discriminate;
      apply log_free_grows in E; try apply log_free_run; exact E.
  - intros d. eexists. split; [vm_compute; reflexivity|].
    split; [reflexivity|].
    eexists. split; [vm_compute; reflexivity|]. split; reflexivity.
Qed.

End Turns.

(** ** Errors of the sink *)

Section SinkErrors.
Context {D : Type} `{Derived D}.

Lemma ws_while_clean (rest : list ascii) :
  forall stk (d : D) e l fl m',
    ws_while rest (Machine stk d rest e l) = Val fl m' ->
    clean l = true -> clean (log m') = true.
Proof.
  induction rest as [|c rest IH]; intros stk d e l fl m' E Hl.
  - inversion E; subst. exact Hl.
  - cbn in E. destruct (is_ws c); cbn in E.
    + unfold bind, advance in E. cbn in E. apply IH in E; auto.
    + unfold bind, pop_state in E. cbn in E.
      destruct stk as [|s stk]; [discriminate|].
      inversion E; subst. exact Hl.
Qed.

Lemma parked_break (m : machine D) :
  parked m -> dispatch m = Val break_ m.
Proof.
  split_machine m. destruct stk as [|s stk]; [contradiction|].
  destruct s; try contradiction; reflexivity.
Qed.

(** One turn of the switch from a clean history: it ends clean, or it ends
    on the failing call, and then either the function returns or it jumps
    back to a placeholder state. *)
Lemma dispatch_settles (m m' : machine D) (fl : flow) :
  clean (log m) = true ->
  dispatch m = Val fl m' ->
  clean (log m') = true \/ (sealed m' /\ (fl = goto_loop -> parked m')).
Proof.
  split_machine m.
  destruct stk as [|s stk]; [intros Hl E; inversion E; subst; now left|].
  intros Hl.
  destruct s;
    try (intros E; left; eapply ws_while_clean; [exact E|exact Hl]);
    unfold dispatch, bind, current_state; cbn; intros E; revert E.
  all: unfold_arms.
  all: destruct rest as [|c0 [|c1 [|c2 [|c3 [|c4 rest]]]]].
  all: branches.
  all: try discriminate.
  all: intros E; inversion E; subst; clear E; cbn in Hl.
  all: try (left; cbn; rewrite ?Hl;
            repeat match goal with
              | Hb : is_error _ = false |- _ => rewrite Hb
              end; reflexivity).
  all: try (right; split;
            [ do 3 eexists; cbn;
              split; [reflexivity|]; split; [eassumption|];
              split; [reflexivity|]; exact Hl
            | discriminate ]).
  all: match goal with
       | |- context [Call _ ?e] => destruct (is_error e) eqn:He
       end.
  all: try (left; cbn; rewrite ?Hl, ?He; reflexivity).
  all: right; split;
         [ do 3 eexists; cbn;
           split; [reflexivity|]; split; [eassumption|];
           split; [reflexivity|]; exact Hl
         | intros _; exact I ].
Qed.

Lemma run_settles (m m' : machine D) :
  clean (log m) = true -> run m = Val tt m' -> settled m'.
Proof.
  remember (measure m) as n eqn:Hn.
  revert m m' Hn. induction n as [n IH] using lt_wf_ind.
  intros m m' Hn Hl E.
  rewrite run_step in E.
  destruct (dispatch m) as [fl m1|f] eqn:Ed; [|discriminate].
  pose proof (dispatch_settles _ Hl Ed) as [Hc|[Hs Hb]].
  - destruct fl.
    + apply dispatch_decreases in Ed.
      eapply (IH (measure m1)); eauto. lia.
    + inversion E; subst. now left.
    + inversion E; subst. now left.
  - destruct fl.
    + rewrite run_step, (parked_break _ (Hb eq_refl)) in E.
      inversion E; subst. now right.
    + inversion E; subst. now right.
    + inversion E; subst. now right.
Qed.

Lemma settled_alone (m : machine D) :
  settled m ->
  forall after ev e before,
    log m = after ++ Call ev e :: before ->
    is_error e = true ->
    after = [] /\ ec m = e.
Proof.
  intros Hs after ev e before Hlog He.
  assert (Hin : forall l, clean l = true -> ~ In (Call ev e) l).
  { intros l Hl Hi. unfold clean in Hl.
    rewrite forallb_forall in Hl. apply Hl in Hi. cbn in Hi.
    rewrite He in Hi. discriminate. }
  destruct Hs as [Hc|(ev0 & e0 & before0 & Hl0 & He0 & Hec & Hc)].
  - exfalso. apply (Hin _ Hc). rewrite Hlog. apply in_elt.
  - rewrite Hl0 in Hlog. destruct after as [|a after].
    + inversion Hlog; subst. auto.
    + exfalso. inversion Hlog; subst. apply (Hin _ Hc). apply in_elt.
Qed.

Lemma write_fuel (buffer : list ascii) (m : machine D) :
  write buffer m <> Crash out_of_fuel.
Proof.
  rewrite write_run. destruct (st_stack_ m) as [|s stk]; [discriminate|].
  destruct s; try discriminate; apply run_fuel.
Qed.

(** C6. A call of [write] always comes to an end, and whatever it did, a
    sink call that set the error slot is the last effect of that call: no
    byte is consumed and the stack is not touched after it, and [write]
    returns that error. *)
Theorem sink_error_ends_write (buffer : list ascii) (m : machine D) :
  write buffer m <> Crash out_of_fuel /\
  forall m',
    write buffer m = Val tt m' ->
    exists effects,
      log m' = effects ++ log m /\
      forall after ev e before,
        effects = after ++ Call ev e :: before ->
        is_error e = true ->
        after = [] /\ ec m' = e.
Proof.
  split; [apply write_fuel|].
  intros m' E.
  destruct m as [stk d p0 e l]. cbn [log].
  change (Machine stk d p0 e l) with (relog l (Machine stk d p0 e [])) in E.
  rewrite log_free_write in E.
  destruct (write buffer (Machine stk d p0 e [])) as [[] m0|f] eqn:E0;
    [|discriminate].
  cbn in E. injection E as <-.
  exists (log m0). split; [reflexivity|].
  change (ec (relog l m0)) with (ec m0).
  apply settled_alone.
  rewrite write_run in E0. cbn [st_stack_] in E0.
  destruct stk as [|s stk]; [discriminate|].
  destruct s; try discriminate; apply run_settles in E0; auto.
Qed.

End SinkErrors.

(** A witness: the first call of the sink fails while ["{}"] is fed. *)
Lemma sink_error_ends_write_witness :
  exists m' effects,
    write (bytes "{}") (basic_parser 0) = Val tt m' /\
    log m' = effects ++ [] /\
    ec m' = consumer 7 /\
    p m' = bytes "}" /\
    forall after ev e before,
      effects = after ++ Call ev e :: before ->
      is_error e = true ->
      after = [] /\ ec m' = e.
Proof.
  assert (E : write (bytes "{}") (basic_parser 0)
              = Val tt (Machine [state.object; state.ws] 0 (bytes "}")
                          (consumer 7)
                          [Call on_object_begin_ (consumer 7);
                           Replace state.object; Adv 1; Pop;
                           Push state.ws; Push state.value;
                           Replace state.ws; Replace state.element;
                           Assign success])).
  { vm_compute. reflexivity. }
  destruct (proj2 (@sink_error_ends_write nat failing_at (bytes "{}")
                     (basic_parser 0)) _ E) as [effects [Hl Hq]].
  eexists. exists effects. split; [exact E|].
  split; [exact Hl|]. split; [reflexivity|]. split; [reflexivity|].
  exact Hq.
Defined.

(** ** Complete inputs, with a sink that never fails *)

(** C5 (as amended). Feeding ["{}"] calls [on_object_begin] and then
    [on_object_end], and nothing else; feeding ["[]"] calls
    [on_array_begin] only: the array state is a placeholder that leaves
    the closing bracket unread. *)
Theorem empty_containers :
  (exists m,
     write (bytes "{}") (basic_parser tt) = Val tt m /\
     ec m = success /\
     events (log m) = [on_object_begin_; on_object_end_]) /\
  (exists m,
     write (bytes "[]") (basic_parser tt) = Val tt m /\
     ec m = success /\
     events (log m) = [on_array_begin_] /\
     st_stack_ m = [state.array_; state.ws] /\
     p m = bytes "]").
Proof.
  split; eexists; (split; [vm_compute; reflexivity|]);
    repeat split; reflexivity.
Qed.

(** C5 (as stated) fails on ["[]"]: no [on_array_end] follows. *)
Lemma empty_array_never_ends :
  exists m,
    write (bytes "[]") (basic_parser tt) = Val tt m /\
    events (log m) <> [on_array_begin_; on_array_end_].
Proof.
  eexists. split; [vm_compute; reflexivity|]. discriminate.
Qed.

(** C7 (as amended). Each of ["01"], ["0"] and ["0.5"], fed and then
    finished, ends in a syntax error: [write] consumes the first digit,
    parks in the number state without an error, and [write_eof] rejects
    that state. *)
Theorem numerals_fed_and_finished :
  Forall (fun s =>
            (exists m,
               write (bytes s) (basic_parser tt) = Val tt m /\
               ec m = success /\
               st_stack_ m = [state.number; state.ws] /\
               p m = tl (bytes s)) /\
            (exists m,
               feed_and_finish [bytes s] (basic_parser tt) = Val tt m /\
               ec m = syntax))
         ["01"; "0"; "0.5"]%string.
Proof.
  repeat constructor;
    (eexists; split; [vm_compute; reflexivity|]; repeat split; reflexivity).
Qed.

(** C7 (as stated) fails on ["0"] and on ["0.5"]: neither is accepted. *)
Lemma zero_is_rejected :
  (exists m,
     feed_and_finish [bytes "0"] (basic_parser tt) = Val tt m /\
     ec m <> success) /\
  (exists m,
     feed_and_finish [bytes "0.5"] (basic_parser tt) = Val tt m /\
     ec m <> success).
Proof.
  split; (eexists; split; [vm_compute; reflexivity|]; discriminate).
Qed.

(** C3 (as stated) fails on a digit, which is consumed, and on the minus
    sign, which is a syntax error. *)
Lemma digit_is_consumed_minus_is_rejected :
  (exists m,
     dispatch (Machine [state.value; state.ws] tt (bytes "1") success [])
     = Val goto_loop m /\
     st_stack_ m = [state.number; state.ws] /\
     p m <> bytes "1") /\
  (exists m,
     dispatch (Machine [state.value; state.ws] tt (bytes "-") success [])
     = Val return_ m /\
     st_stack_ m <> [state.number; state.ws] /\
     ec m = syntax).
Proof.
  split; (eexists; split; [vm_compute; reflexivity|]; split;
          [try reflexivity; discriminate | try reflexivity; discriminate]).
Qed.


(** C1 (what the code does). The document ["false "] in one chunk is
    accepted with a single [on_false]; cut after the fifth byte, the first
    chunk takes the fast path, which leaves the last byte of the literal
    to the trailing whitespace, the stack empties on it, and the second
    call of [write] trips the assertion at its entry. *)
Lemma chunking_trips_assertion :
  concat [bytes "false"; bytes " "] = bytes "false " /\
  (exists m,
     feed_and_finish [bytes "false "] (basic_parser tt) = Val tt m /\
     ec m = success /\
     events (log m) = [on_false_]) /\
  (exists m,
     write (bytes "false") (basic_parser tt) = Val tt m /\
     ec m = success /\ st_stack_ m = [] /\ p m = bytes "e") /\
  feed_and_finish [bytes "false"; bytes " "] (basic_parser tt)
  = Crash assertion_failed.
Proof.
  split; [reflexivity|]. split; [|split; [|vm_compute; reflexivity]];
    (eexists; split; [vm_compute; reflexivity|]; repeat split).
Qed.

Section Chunks.
Context {D : Type} `{Derived D}.

Lemma ws_while_reach (rest : list ascii) :
  forall stk (d : D) e l fl m1,
    ws_while rest (Machine (state.ws :: stk) d rest e l) = Val fl m1 ->
    (st_stack_ m1 = state.ws :: stk \/ st_stack_ m1 = stk) /\ ec m1 = e.
Proof.
  induction rest as [|c rest IH]; intros stk d e l fl m1 E.
  - inversion E; subst. auto.
  - cbn in E. destruct (is_ws c); cbn in E.
    + unfold bind, advance in E. cbn in E. now apply IH in E.
    + inversion E; subst. auto.
Qed.

(** A turn of the switch keeps the machine steady. *)
Lemma dispatch_steady (m m1 : machine D) (fl : flow) :
  steady m -> dispatch m = Val fl m1 ->
  reach (st_stack_ m1) /\ (fl = goto_loop -> steady m1).
Proof.
  intros [R Hec]. split_machine m. cbn in R, Hec.
  assert (G : dispatch (Machine stk d rest e l) = Val fl m1 ->
              reach (st_stack_ m1) /\
              (ec m1 = success \/ parked m1 \/ fl <> goto_loop)).
  2:{ intros E. destruct (G E) as [R1 Hec1]. split; [exact R1|].
      intros ->. split; [exact R1|]. destruct Hec1 as [?|[?|?]]; tauto. }
  inversion R as [|below|below|below| | | | | | | |s Hs]; subst.
  12: destruct s; try discriminate Hs.
  1-4: intros E; inversion E; subst; cbn; split; [assumption|tauto].
  all: destruct Hec as [->|Hp]; [|cbn in Hp; contradiction].
  3,6,7: intros E; unfold dispatch, bind, current_state, case_ws in E;
         cbn in E; apply ws_while_reach in E;
         destruct E as [[-> | ->] ->]; split; auto; constructor.
  all: unfold dispatch, bind, current_state; cbn; intros E; revert E.
  all: unfold_arms.
  all: destruct rest as [|c0 [|c1 [|c2 [|c3 [|c4 rest]]]]].
  all: branches.
  all: try discriminate.
  all: intros E; inversion E; subst; clear E; cbn.
  all: repeat match goal with
         | Hb : is_error ?x = false |- _ =>
             destruct x; try discriminate Hb; clear Hb
         end.
  all: (split; [first [constructor; reflexivity | constructor]|]).
  all: auto.
  all: try (right; left; exact I).
  all: right; right; discriminate.
Qed.

Lemma ws_while_more (a : list ascii) :
  forall stk (d : D) e l b fl m1,
    ws_while a (Machine (state.ws :: stk) d a e l) = Val fl m1 ->
    (fl = goto_loop /\
     ws_while (a ++ b) (Machine (state.ws :: stk) d (a ++ b) e l)
     = Val fl (more b m1)) \/
    (fl = break_ /\ p m1 = [] /\ ec m1 = e /\
     st_stack_ m1 = state.ws :: stk /\
     ws_while (a ++ b) (Machine (state.ws :: stk) d (a ++ b) e l)
     = ws_while b (refill b m1)).
Proof.
  induction a as [|c a IH]; intros stk d e l b fl m1 E.
  - inversion E; subst. right. repeat split.
  - cbn in E |- *. destruct (is_ws c); cbn in E |- *.
    + unfold bind, advance in E |- *. cbn in E |- *. now apply IH.
    + inversion E; subst. left. split; reflexivity.
Qed.

(** A turn of the switch when more bytes stand behind the chunk: the same
    turn; or the chunk ran out, and the turn is the one that the
    suspended machine makes on the further bytes; or a literal begins
    that only the longer chunk holds in full. *)
Lemma dispatch_more (m m1 : machine D) (b : list ascii) (fl : flow) :
  steady m -> dispatch m = Val fl m1 ->
  (dispatch (more b m) = Val fl (more b m1) /\
   (fl = goto_loop \/ is_error (ec m1) = true \/ parked m1 \/
    st_stack_ m1 = [])) \/
  (fl = break_ /\ p m1 = [] /\ ec m1 = success /\ st_stack_ m1 <> [] /\
   dispatch (more b m) = dispatch (refill b m1)) \/
  (slow_start m /\ fl = goto_loop).
Proof.
  intros [R Hec]. split_machine m. cbn in R, Hec.
  inversion R as [|below|below|below| | | | | | | |s Hs]; subst.
  12: destruct s; try discriminate Hs.
  1-4: intros E; inversion E; subst; left; split; [reflexivity|];
       cbn; tauto.
  all: destruct Hec as [->|Hp]; [|cbn in Hp; contradiction].
  3,6,7: intros E;
         unfold more, dispatch, bind, current_state, case_ws in E |- *;
         cbn in E |- *; apply ws_while_more with (b := b) in E;
         destruct E as [[-> E]|(-> & Hp & He & Hs & E)];
         [ left; split; [exact E|now left]
         | right; left; repeat split; auto;
           [ rewrite Hs; discriminate
           | rewrite E; destruct m1 as [stk1 d1 p1 e1 l1];
             cbn in Hs; subst stk1; reflexivity ] ].
  all: intros E; unfold dispatch, bind, current_state in E; cbn in E.
  all: unfold_arms_in E.
  all: destruct rest as [|c0 [|c1 [|c2 [|c3 [|c4 rest]]]]].
  all: branches_in E.
  all: try discriminate E.
  all: inversion E; subst; clear E.
  all: try (left; split; [|cbn; tauto];
            unfold more, dispatch, bind, current_state; cbn; unfold_arms;
            repeat first [progress cbn | progress rewrite_tests];
            reflexivity).
  all: try (right; left;
            split; [reflexivity|]; split; [reflexivity|];
            split; [reflexivity|]; split; [discriminate|];
            unfold more, refill, dispatch, bind, current_state; cbn;
            unfold_arms;
            repeat first [progress cbn | progress rewrite_tests];
            reflexivity).
  all: try (right; right; split; [|reflexivity];
            eexists; eexists; split; [reflexivity|]; split; [reflexivity|];
            first
              [ left; split;
                [ first [ left; apply Ascii.eqb_eq; assumption
                        | right; apply Ascii.eqb_eq; assumption ]
                | cbn; lia ]
              | right; split; [apply Ascii.eqb_eq; assumption | cbn; lia] ]).
Qed.

(** *** Outcomes that agree *)

Lemma calls_app (l1 l2 : list action) :
  calls (l1 ++ l2) = calls l2 ++ calls l1.
Proof.
  induction l1 as [|a l1 IH]; cbn; [now rewrite app_nil_r|].
  destruct a; auto. now rewrite IH, app_assoc.
Qed.

Lemma agree_refl (r : result D unit) : agree r r.
Proof. destruct r as [[] m|f]; cbn; auto. Qed.

Lemma agree_trans (r1 r2 r3 : result D unit) :
  agree r1 r2 -> agree r2 r3 -> agree r1 r3.
Proof.
  destruct r1 as [[] m1|f1], r2 as [[] m2|f2], r3 as [[] m3|f3]; cbn;
    try tauto; try congruence.
  intros (E1 & I1 & C1 & S1) (E2 & I2 & C2 & S2).
  repeat split; try congruence.
  intros E3. assert (E3' : ec m2 = success) by congruence.
  destruct (S1 E3') as [S|[S S']], (S2 E3) as [T|[T T']].
  - left. congruence.
  - right. split; congruence.
  - right. split; congruence.
  - congruence.
Qed.

Lemma run_log_agree stk (d : D) r e (l1 l2 : list action) :
  calls l1 = calls l2 ->
  agree (run (Machine stk d r e l1)) (run (Machine stk d r e l2)).
Proof.
  intros Hc.
  change (Machine stk d r e l1) with (relog l1 (Machine stk d r e [])).
  change (Machine stk d r e l2) with (relog l2 (Machine stk d r e [])).
  rewrite !log_free_run.
  destruct (run _) as [[] m|f]; cbn; auto.
  rewrite !calls_app, Hc. auto.
Qed.

Lemma run_goto (m m' : machine D) :
  dispatch m = Val goto_loop m' -> run m = run m'.
Proof. intros E. now rewrite run_step, E. Qed.

Lemma run_stop (m m' : machine D) (fl : flow) :
  dispatch m = Val fl m' -> fl <> goto_loop -> run m = Val tt m'.
Proof. intros E N. rewrite run_step, E. now destruct fl. Qed.

Lemma run_same (m m' : machine D) :
  dispatch m = dispatch m' -> run m = run m'.
Proof. intros E. now rewrite (run_step m), (run_step m'), E. Qed.

Lemma agree_goto_l (m m' : machine D) r :
  dispatch m = Val goto_loop m' -> agree (run m') r -> agree (run m) r.
Proof. intros E. now rewrite (run_step m), E. Qed.

Lemma agree_goto_r (m m' : machine D) r :
  dispatch m = Val goto_loop m' -> agree r (run m') -> agree r (run m).
Proof. intros E. now rewrite (run_step m), E. Qed.

Lemma agree_stop_l (m m' : machine D) fl r :
  dispatch m = Val fl m' -> fl <> goto_loop ->
  agree (Val tt m') r -> agree (run m) r.
Proof. intros E N. rewrite (run_step m), E. now destruct fl. Qed.

Lemma agree_stop_r (m m' : machine D) fl r :
  dispatch m = Val fl m' -> fl <> goto_loop ->
  agree r (Val tt m') -> agree r (run m).
Proof. intros E N. rewrite (run_step m), E. now destruct fl. Qed.

Lemma agree_same_r (m m' : machine D) r :
  dispatch m = dispatch m' -> agree r (run m') -> agree r (run m).
Proof. intros E. now rewrite (run_step m), (run_step m'), E. Qed.

(** The trailing whitespace alone: no call, no error, and the stack is
    left as it is or emptied. *)
Lemma ws_while_trailing (rest : list ascii) :
  forall (d : D) e l fl m',
    ws_while rest (Machine [state.ws] d rest e l) = Val fl m' ->
    impl m' = d /\ ec m' = e /\ calls (log m') = calls l /\
    ((fl = break_ /\ st_stack_ m' = [state.ws]) \/
     (fl = goto_loop /\ st_stack_ m' = [])).
Proof.
  induction rest as [|c rest IH]; intros d e l fl m' E.
  - inversion E; subst. cbn. auto 6.
  - cbn in E. destruct (is_ws c); cbn in E.
    + unfold bind, advance in E. cbn in E. now apply IH in E.
    + inversion E; subst. cbn. auto 6.
Qed.

Lemma run_trailing (d : D) rest e l :
  exists m',
    run (Machine [state.ws] d rest e l) = Val tt m' /\
    impl m' = d /\ ec m' = e /\ calls (log m') = calls l /\
    (st_stack_ m' = [state.ws] \/ st_stack_ m' = []).
Proof.
  destruct (dispatch (Machine [state.ws] d rest e l)) as [fl m1|f] eqn:E.
  - pose proof E as E'.
    unfold dispatch, bind, current_state, case_ws in E'. cbn in E'.
    apply ws_while_trailing in E'.
    destruct E' as (Hi & He & Hc & [[-> Hs]|[-> Hs]]).
    + exists m1. rewrite run_step, E. auto 6.
    + exists m1. rewrite run_step, E.
      assert (E1 : dispatch m1 = Val break_ m1).
      { destruct m1 as [s1 d1 p1 e1 l1]. cbn in Hs. now subst s1. }
      rewrite run_step, E1. auto 6.
  - apply dispatch_crash in E. destruct E as (_ & _ & below & E).
    discriminate.
Qed.

(** *** Literals begun in a short chunk *)

Ltac eval_dispatch :=
  unfold dispatch, bind, current_state; cbn; unfold_arms;
  repeat first [progress cbn | progress rewrite_tests]; reflexivity.

Ltac both_stop :=
  repeat match goal with
    | N : _ <> _ |- _ => apply Ascii.eqb_neq in N
    end;
  eapply agree_stop_l; [eval_dispatch | discriminate |];
  eapply agree_stop_r; [eval_dispatch | discriminate |];
  cbn; repeat split; discriminate.

Lemma literal_start_true (d : D) q e l :
  agree (run (Machine [state.value; state.ws] d ("t" :: q) e l))
        (run (Machine [state.true_1; state.ws] d q e
                (Replace state.true_1 :: Adv 1 :: l))).
Proof.
  destruct q as [|x1 [|x2 [|x3 q]]].
  1-3: eapply agree_goto_l; [reflexivity|apply agree_refl].
  destruct (Ascii.eqb_spec x1 "r") as [->|N1];
    [destruct (Ascii.eqb_spec x2 "u") as [->|N2];
      [destruct (Ascii.eqb_spec x3 "e") as [->|N3]|]|];
    try both_stop.
  eapply agree_goto_l; [reflexivity|].
  eapply agree_same_r with
    (m' := Machine [state.true_4; state.ws] d q e
             (Replace state.true_4 :: Adv 1 :: Replace state.true_3 ::
              Adv 1 :: Replace state.true_2 :: Adv 1 ::
              Replace state.true_1 :: Adv 1 :: l)); [reflexivity|].
  apply run_log_agree. reflexivity.
Qed.

Lemma literal_start_null (d : D) q e l :
  agree (run (Machine [state.value; state.ws] d ("n" :: q) e l))
        (run (Machine [state.null_1; state.ws] d q e
                (Replace state.null_1 :: Adv 1 :: l))).
Proof.
  destruct q as [|x1 [|x2 [|x3 q]]].
  1-3: eapply agree_goto_l; [reflexivity|apply agree_refl].
  destruct (Ascii.eqb_spec x1 "u") as [->|N1];
    [destruct (Ascii.eqb_spec x2 "l") as [->|N2];
      [destruct (Ascii.eqb_spec x3 "l") as [->|N3]|]|];
    try both_stop.
  eapply agree_goto_l; [reflexivity|].
  eapply agree_same_r with
    (m' := Machine [state.null_4; state.ws] d q e
             (Replace state.null_4 :: Adv 1 :: Replace state.null_3 ::
              Adv 1 :: Replace state.null_2 :: Adv 1 ::
              Replace state.null_1 :: Adv 1 :: l)); [reflexivity|].
  apply run_log_agree. reflexivity.
Qed.

(** After [false] the fast path leaves the last byte of the literal to
    the trailing whitespace, which gives up on it. *)
Lemma false_5_tail (d : D) q e l1 l2 :
  calls l1 = calls l2 ->
  agree (run (Machine [state.false_5; state.ws] d ("e" :: q) e l1))
        (run (Machine [state.false_5; state.ws] d q e l2)).
Proof.
  intros Hc.
  destruct (on_false d e) as [d' e'] eqn:Ecb.
  destruct (is_error e') eqn:Ee.
  - eapply agree_stop_l; [eval_dispatch | discriminate |].
    eapply agree_stop_r; [eval_dispatch | discriminate |].
    cbn. rewrite Hc. repeat split. intros ->. discriminate.
  - eapply agree_goto_l; [eval_dispatch|].
    eapply agree_goto_l; [eval_dispatch|].
    eapply agree_stop_l; [eval_dispatch | discriminate |].
    eapply agree_goto_r; [eval_dispatch|].
    destruct (run_trailing d' q e' (Pop :: Call on_false_ e' :: l2))
      as (m' & -> & Hi & He & Hl & Hs).
    cbn. rewrite Hi, He, Hl. cbn. rewrite Hc. repeat split.
    intros _. destruct Hs as [-> | ->]; auto.
Qed.

Lemma literal_start_false (d : D) q e l :
  agree (run (Machine [state.value; state.ws] d ("f" :: q) e l))
        (run (Machine [state.false_1; state.ws] d q e
                (Replace state.false_1 :: Adv 1 :: l))).
Proof.
  destruct q as [|x1 [|x2 [|x3 [|x4 q]]]].
  1-4: eapply agree_goto_l; [reflexivity|apply agree_refl].
  destruct (Ascii.eqb_spec x1 "a") as [->|N1];
    [destruct (Ascii.eqb_spec x2 "l") as [->|N2];
      [destruct (Ascii.eqb_spec x3 "s") as [->|N3];
        [destruct (Ascii.eqb_spec x4 "e") as [->|N4]|]|]|];
    try both_stop.
  eapply agree_goto_l; [reflexivity|].
  eapply agree_same_r with
    (m' := Machine [state.false_5; state.ws] d q e
             (Replace state.false_5 :: Adv 1 :: Replace state.false_4 ::
              Adv 1 :: Replace state.false_3 :: Adv 1 ::
              Replace state.false_2 :: Adv 1 ::
              Replace state.false_1 :: Adv 1 :: l)); [reflexivity|].
  apply false_5_tail. reflexivity.
Qed.

(** A literal that begins in a chunk too short for the fast path ends as
    it does when the longer chunk takes the fast path. *)
Lemma slow_start_agrees (m m1 : machine D) (b : list ascii) :
  slow_start m -> dispatch m = Val goto_loop m1 ->
  agree (run (more b m)) (run (more b m1)).
Proof.
  intros (c & r & Hs & Hp & Hc) E.
  split_machine m. cbn in Hs, Hp. subst stk rest.
  destruct Hc as [[[-> | ->] Hl]|[-> Hl]].
  - destruct r as [|x1 [|x2 [|x3 r]]]; try (cbn in Hl; lia);
      inversion E; subst; apply literal_start_true.
  - destruct r as [|x1 [|x2 [|x3 r]]]; try (cbn in Hl; lia);
      inversion E; subst; apply literal_start_null.
  - destruct r as [|x1 [|x2 [|x3 [|x4 r]]]]; try (cbn in Hl; lia);
      inversion E; subst; apply literal_start_false.
Qed.

(** *** The loop on a longer chunk *)

Lemma is_error_false (e : error_code) : is_error e = false -> e = success.
Proof. now destruct e. Qed.

Lemma run_reach (m m' : machine D) :
  steady m -> run m = Val tt m' -> reach (st_stack_ m').
Proof.
  remember (measure m) as n eqn:Hn.
  revert m m' Hn. induction n as [n IH] using lt_wf_ind.
  intros m m' Hn Hst E.
  rewrite run_step in E.
  destruct (dispatch m) as [fl m1|f] eqn:Ed; [|discriminate].
  destruct (dispatch_steady Hst Ed) as [R1 S1].
  destruct fl.
  - apply dispatch_decreases in Ed.
    eapply (IH (measure m1)); eauto. lia.
  - now inversion E; subst.
  - now inversion E; subst.
Qed.

Lemma agree_more (m : machine D) (b : list ascii) :
  agree (Val tt (more b m)) (Val tt m).
Proof. cbn. auto. Qed.

(** The loop on a chunk followed by further bytes agrees with the loop on
    the chunk alone and then, if the parser is still going, on the
    further bytes. *)
Lemma run_more (n : nat) :
  forall (m m' : machine D) (b : list ascii),
    measure m < n -> steady m -> run m = Val tt m' ->
    agree (run (more b m)) (resume b m').
Proof.
  induction n as [|n IH]; intros m m' b Hn Hst E; [lia|].
  rewrite run_step in E.
  destruct (dispatch m) as [fl m1|f] eqn:Ed; [|discriminate].
  destruct (dispatch_more b Hst Ed)
    as [[Em Hk]|[(-> & Hp & He & Hs & Em)|[Hss ->]]].
  - destruct fl.
    + eapply agree_goto_l; [exact Em|].
      apply IH; auto.
      * apply dispatch_decreases in Ed. lia.
      * now apply (dispatch_steady Hst Ed).
    + inversion E; subst m1. clear E.
      eapply agree_stop_l; [exact Em|discriminate|].
      unfold resume. destruct (is_error (ec m')) eqn:Ee;
        [apply agree_more|].
      destruct Hk as [?|[?|[Hk|Hk]]]; try discriminate.
      * pose proof (parked_break (refill b m')) as Eb.
        destruct m' as [[|s stk] d r e l]; [apply agree_more|].
        rewrite run_step, Eb by exact Hk. cbn. auto.
      * rewrite Hk. apply agree_more.
    + inversion E; subst m1. clear E.
      eapply agree_stop_l; [exact Em|discriminate|].
      unfold resume. destruct (is_error (ec m')) eqn:Ee;
        [apply agree_more|].
      destruct Hk as [?|[?|[Hk|Hk]]]; try discriminate.
      * pose proof (parked_break (refill b m')) as Eb.
        destruct m' as [[|s stk] d r e l]; [apply agree_more|].
        rewrite run_step, Eb by exact Hk. cbn. auto.
      * rewrite Hk. apply agree_more.
  - inversion E; subst m1. clear E.
    unfold resume. rewrite He. cbn [is_error].
    destruct (st_stack_ m') as [|s stk] eqn:Es; [contradiction|].
    rewrite (run_step (more b m)), Em, <- (run_step (refill b m')).
    apply agree_refl.
  - eapply agree_trans; [apply (slow_start_agrees b Hss Ed)|].
    apply IH; auto.
    + apply dispatch_decreases in Ed. lia.
    + now apply (dispatch_steady Hst Ed).
Qed.

(** *** Sequences of chunks *)

Lemma feed_cons (c : list ascii) (cs : list (list ascii)) (m : machine D) :
  feed_and_finish (c :: cs) m =
  match write c m with
  | Val _ m1 => if is_error (ec m1) then Val tt m1 else feed_and_finish cs m1
  | Crash f => Crash f
  end.
Proof.
  unfold feed_and_finish. cbn [write_buffers]. unfold bind at 1 2.
  destruct (write c m) as [[] m1|f]; [|reflexivity].
  unfold failed at 1. cbn [ec]. unfold bind.
  destruct (is_error (ec m1)) eqn:Ee; [|reflexivity].
  cbn. unfold failed. now rewrite Ee.
Qed.

Lemma feed_nil (m : machine D) :
  feed_and_finish [] m = if is_error (ec m) then Val tt m else write_eof m.
Proof.
  unfold feed_and_finish, bind, failed. cbn.
  now destruct (is_error (ec m)).
Qed.

Lemma feed_single (c : list ascii) (m : machine D) :
  feed_and_finish [c] m =
  match write c m with
  | Val _ m1 => if is_error (ec m1) then Val tt m1 else write_eof m1
  | Crash f => Crash f
  end.
Proof.
  rewrite feed_cons. destruct (write c m) as [[] m1|f]; [|reflexivity].
  rewrite feed_nil. now destruct (is_error (ec m1)).
Qed.

Lemma write_eof_agree (m1 m2 : machine D) :
  agree (Val tt m1) (Val tt m2) -> ec m2 = success ->
  exists m1' m2',
    write_eof m1 = Val tt m1' /\ write_eof m2 = Val tt m2' /\
    ec m1' = ec m2' /\ impl m1' = impl m2' /\
    calls (log m1') = calls (log m2').
Proof.
  intros (He & Hi & Hc & Hs) E2.
  destruct m1 as [s1 d1 p1 e1 l1], m2 as [s2 d2 p2 e2 l2]. cbn in *.
  destruct (Hs E2) as [-> | [-> ->]].
  - unfold write_eof, bind, current_state, assign. cbn.
    destruct s2 as [|s s2]; [|destruct s]; cbn;
      do 2 eexists; repeat split; cbn; auto.
  - do 2 eexists. repeat split; cbn; auto.
Qed.

(** Chunking invariance from any machine that the constructor and
    [write] can have produced. *)
Lemma chunks_agree (chunks : list (list ascii)) :
  forall m mc : machine D,
    reach (st_stack_ m) -> chunks <> [] ->
    feed_and_finish chunks m = Val tt mc ->
    exists mw,
      feed_and_finish [concat chunks] m = Val tt mw /\
      ec mw = ec mc /\ impl mw = impl mc /\
      calls (log mw) = calls (log mc).
Proof.
  induction chunks as [|c cs IH]; intros m mc R Hne E; [contradiction|].
  destruct cs as [|c2 cs'].
  { cbn [concat]. rewrite app_nil_r. exists mc. auto. }
  set (b := concat (c2 :: cs')) in *.
  change (concat (c :: c2 :: cs')) with (c ++ b).
  rewrite feed_cons in E.
  destruct (write c m) as [[] m1|f] eqn:Ew; [|discriminate].
  rewrite feed_single.
  rewrite write_run in Ew |- *.
  destruct (st_stack_ m) as [|s stk] eqn:Es; [discriminate|].
  assert (Hst : steady (armed c m)).
  { split; [cbn; rewrite Es; exact R | now left]. }
  assert (Ha : agree (run (armed (c ++ b) m)) (resume b m1)).
  { assert (Ew' : run (armed c m) = Val tt m1) by (destruct s; auto; discriminate).
    apply (run_more (n := S (measure (armed c m))) b (Nat.lt_succ_diag_r _)
             Hst Ew'). }
  assert (R1 : reach (st_stack_ m1)).
  { apply (run_reach (m := armed c m)); auto.
    destruct s; auto; discriminate. }
  assert (Hw : match s with
               | state.end_ => Crash assertion_failed
               | _ => run (armed (c ++ b) m)
               end = run (armed (c ++ b) m)).
  { destruct s; auto; discriminate. }
  rewrite Hw. clear Hw Ew.
  unfold resume in Ha.
  destruct (is_error (ec m1)) eqn:Ee.
  - inversion E; subst mc. clear E.
    destruct (run (armed (c ++ b) m)) as [[] mw|f]; [|contradiction].
    destruct Ha as (He & Hi & Hc & _).
    rewrite He, Ee. exists mw. auto.
  - destruct (IH m1 mc R1 ltac:(discriminate) E)
      as (mw' & Ef & He' & Hi' & Hc').
    change (concat (c2 :: cs')) with b in Ef.
    rewrite feed_single, write_run in Ef.
    destruct (st_stack_ m1) as [|s1 stk1] eqn:Es1; [discriminate|].
    assert (Hr : agree (run (refill b m1)) (run (armed b m1))).
    { destruct m1 as [sm dm pm em lm]. cbn in Ee. 
      apply is_error_false in Ee. subst em.
      apply run_log_agree. reflexivity. }
    pose proof (agree_trans _ _ _ Ha Hr) as Hag. clear Ha Hr.
    assert (Ef' : match run (armed b m1) with
                  | Val _ m2 =>
                      if is_error (ec m2) then Val tt m2 else write_eof m2
                  | Crash f => Crash f
                  end = Val tt mw').
    { destruct s1; auto; discriminate. }
    clear Ef.
    destruct (run (armed b m1)) as [[] m2|f2]; [|discriminate].
    destruct (run (armed (c ++ b) m)) as [[] mw1|f1]; [|contradiction].
    pose proof Hag as (He & Hi & Hc & Hs).
    rewrite He.
    destruct (is_error (ec m2)) eqn:Ee2.
    + inversion Ef'; subst mw'. exists mw1.
      repeat split; congruence.
    + destruct (write_eof_agree Hag (is_error_false _ Ee2))
        as (m1' & m2' & W1 & W2 & We & Wi & Wc).
      rewrite W2 in Ef'. inversion Ef'; subst mw'.
      exists m1'. rewrite W1. repeat split; congruence.
Qed.

End Chunks.


(** X14. Take any input cut into a sequence of chunks that is not empty,
    and feed the chunks in order, stopping at the first one that reports
    an error as the overload of [write] for buffer sequences does, and
    otherwise finishing with [write_eof].  If that run comes back, that
    is if no call of [write] finds the stack empty and trips the
    assertion at its entry, then [write] on the whole input followed by
    [write_eof] comes back too, with the same sink calls in the same
    order (and the same errors returned by them), the same derived object
    and the same final error. *)
Theorem chunking_invariance {D : Type} `{Derived D}
  (chunks : list (list ascii)) (d : D) (mc : machine D) :
  chunks <> [] ->
  feed_and_finish chunks (basic_parser d) = Val tt mc ->
  exists mw,
    feed_and_finish [concat chunks] (basic_parser d) = Val tt mw /\
    ec mw = ec mc /\ impl mw = impl mc /\
    calls (log mw) = calls (log mc).
Proof.
  intros Hne E. apply chunks_agree; auto. constructor.
Qed.

(** ** Witnesses *)

(** ["false "] cut inside the literal. *)
Lemma chunking_invariance_witness :
  [bytes "fa"; bytes "lse "] <> [] /\
  exists mc mw,
    feed_and_finish [bytes "fa"; bytes "lse "] (basic_parser tt)
    = Val tt mc /\
    feed_and_finish [concat [bytes "fa"; bytes "lse "]] (basic_parser tt)
    = Val tt mw /\
    ec mw = ec mc /\ impl mw = impl mc /\
    calls (log mw) = calls (log mc).
Proof.
  split; [discriminate|].
  destruct (feed_and_finish [bytes "fa"; bytes "lse "] (basic_parser tt))
    as [[] mc|f] eqn:E; [|vm_compute in E; discriminate].
  destruct (@chunking_invariance unit quiet [bytes "fa"; bytes "lse "]
              tt mc ltac:(discriminate) E) as (mw & Ew & Hw).
  exists mc, mw. split; [reflexivity|]. split; [exact Ew|exact Hw].
Defined.


(** A digit, and a byte that begins no value. *)
Lemma value_dispatch_witness :
  dispatch (Machine [state.value; state.ws] tt (bytes "7") success [])
  = Val goto_loop (Machine [state.number; state.ws] tt [] success
                     [Replace state.number; Adv 1]) /\
  dispatch (Machine [state.value; state.ws] tt (bytes "x") success [])
  = Val return_ (Machine [state.value; state.ws] tt (bytes "x") syntax
                   [Assign syntax]).
Proof.
  pose proof (@value_dispatch unit quiet [state.ws] tt success [])
    as (_ & Hd & Ho).
  split.
  - apply Hd. reflexivity.
  - apply Ho; [reflexivity|]. cbn. intuition discriminate.
Defined.


(** The history of a call of [write] begins with the assignment. *)
Lemma write_forgets_previous_error_witness :
  exists m' l,
    write (bytes "x") (basic_parser tt) = Val tt m' /\
    log m' = l ++ [Assign success].
Proof.
  destruct (write (bytes "x") (basic_parser tt)) as [[] m'|f] eqn:E;
    [|vm_compute in E; discriminate].
  destruct (proj1 (proj2 (@write_forgets_previous_error unit quiet))
              (bytes "x") (basic_parser tt) m' E) as [l Hl].
  exists m', l. split; [reflexivity|exact Hl].
Defined.

(** * Further properties of the engine *)

(** X1. [is_digit], written with a wrap-around subtraction, accepts
    exactly the ten decimal digits. *)
Theorem is_digit_exactly_the_digits (c : ascii) :
  is_digit c = true <->
  In c ["0"; "1"; "2"; "3"; "4"; "5"; "6"; "7"; "8"; "9"].
Proof.
  rewrite <- digit_label_is_digit. unfold digit_label.
  rewrite existsb_exists. split.
  - intros (x & Hin & Heq). apply Ascii.eqb_eq in Heq. now subst.
  - intros Hin. exists c. split; [exact Hin|apply Ascii.eqb_refl].
Qed.

Ltac give_prefix :=
  match goal with
  | |- exists pre, ?L = pre ++ _ =>
      first [ exists (firstn 0 L); reflexivity
            | exists (firstn 1 L); reflexivity
            | exists (firstn 2 L); reflexivity
            | exists (firstn 3 L); reflexivity
            | exists (firstn 4 L); reflexivity
            | exists (firstn 5 L); reflexivity ]
  end.

Ltac eval_turn :=
  unfold dispatch, bind, current_state; cbn; unfold_arms;
  repeat first [progress cbn | progress rewrite_tests]; reflexivity.

Section Further.
Context {D : Type} `{Derived D}.

Lemma run_crash (m : machine D) (f : failure) :
  run m = Crash f -> f = read_past_end.
Proof.
  remember (measure m) as n eqn:Hn.
  revert m Hn. induction n as [n IH] using lt_wf_ind. intros m Hn E.
  rewrite run_step in E.
  destruct (dispatch m) as [fl m1|f1] eqn:Ed.
  - destruct fl; try discriminate.
    apply dispatch_decreases in Ed. eapply (IH (measure m1)); eauto. lia.
  - apply dispatch_crash in Ed. destruct Ed as [-> _]. congruence.
Qed.

(** X2. The only assertion that a call of [write] can trip is the one at
    its entry, and it trips exactly when [current_state()] is [end]:
    [pop_state] and [replace_state] are never reached with an empty
    stack. *)
Theorem write_assertion (buffer : list ascii) (m : machine D) :
  write buffer m = Crash assertion_failed <->
  current_state m = Val state.end_ m.
Proof.
  rewrite write_run. split_machine m. unfold current_state. cbn.
  destruct stk as [|s stk]; [tauto|].
  destruct s; try tauto;
    (split; [intros E; apply run_crash in E; discriminate
            | intros E; discriminate E]).
Qed.

Lemma run_in_chunk (m : machine D) :
  steady m -> run m <> Crash read_past_end.
Proof.
  remember (measure m) as n eqn:Hn.
  revert m Hn. induction n as [n IH] using lt_wf_ind. intros m Hn Hst E.
  rewrite run_step in E.
  destruct (dispatch m) as [fl m1|f1] eqn:Ed.
  - destruct fl; try discriminate.
    pose proof (dispatch_steady Hst Ed) as [_ S1].
    apply dispatch_decreases in Ed.
    eapply (IH (measure m1)); eauto. lia.
  - apply dispatch_crash in Ed. destruct Ed as (_ & _ & below & Es).
    destruct Hst as [R _]. rewrite Es in R. inversion R; discriminate.
Qed.

Lemma write_reach (buffer : list ascii) (m m' : machine D) :
  reach (st_stack_ m) -> write buffer m = Val tt m' ->
  reach (st_stack_ m').
Proof.
  intros R E. rewrite write_run in E.
  assert (Hst : steady (armed buffer m)) by (split; [exact R|now left]).
  destruct (st_stack_ m) as [|s stk]; [discriminate|].
  destruct s; try discriminate; eapply run_reach; eauto.
Qed.

Lemma write_buffers_reach (buffers : list (list ascii)) :
  forall m : machine D,
    reach (st_stack_ m) ->
    write_buffers buffers m <> Crash read_past_end /\
    forall m', write_buffers buffers m = Val tt m' -> reach (st_stack_ m').
Proof.
  induction buffers as [|b bs IH]; intros m R.
  - split; [discriminate|]. intros m' E. now inversion E; subst.
  - cbn [write_buffers]. unfold bind at 1 3.
    destruct (write b m) as [[] m1|f] eqn:Ew.
    + pose proof Ew as R1. apply write_reach in R1; [|exact R].
      unfold failed, bind. cbn.
      destruct (is_error (ec m1)).
      * split; [discriminate|]. intros m' E. now inversion E; subst.
      * apply IH, R1.
    + split; [|discriminate].
      rewrite write_run in Ew.
      assert (Hst : steady (armed b m)) by (split; [exact R|now left]).
      destruct (st_stack_ m) as [|s stk];
        [inversion Ew; discriminate|].
      destruct s; try (inversion Ew; discriminate);
        intros E; inversion E; subst f;
        now apply (run_in_chunk Hst).
Qed.

(** X3. A parser built by the constructor and fed any sequence of
    buffers never reads outside of a chunk, and every call comes to an
    end: the unguarded read of the members state is out of its reach. *)
Theorem built_parser_stays_in_chunk (buffers : list (list ascii)) (d : D) :
  write_buffers buffers (basic_parser d) <> Crash read_past_end /\
  write_buffers buffers (basic_parser d) <> Crash out_of_fuel.
Proof.
  split; [apply write_buffers_reach; constructor|].
  generalize (basic_parser d). induction buffers as [|b bs IH]; intros m.
  - discriminate.
  - cbn [write_buffers]. unfold bind at 1.
    destruct (write b m) as [[] m1|f] eqn:Ew.
    + unfold failed, bind. cbn. destruct (is_error (ec m1));
        [discriminate|apply IH].
    + intros E. inversion E; subst f. now apply (write_fuel b m).
Qed.

Lemma ws_while_prefix (rest : list ascii) :
  forall stk (d : D) e l fl m1,
    ws_while rest (Machine stk d rest e l) = Val fl m1 ->
    exists pre, rest = pre ++ p m1.
Proof.
  induction rest as [|c rest IH]; intros stk d e l fl m1 E.
  - inversion E; subst. now exists [].
  - cbn in E. destruct (is_ws c); cbn in E.
    + unfold bind, advance in E. cbn in E.
      apply IH in E. destruct E as [pre E]. exists (c :: pre).
      cbn. now rewrite <- E.
    + unfold bind, pop_state in E. cbn in E.
      destruct stk as [|s stk]; [discriminate|].
      inversion E; subst. now exists [].
Qed.

Lemma dispatch_prefix (m m1 : machine D) (fl : flow) :
  dispatch m = Val fl m1 -> exists pre, p m = pre ++ p m1.
Proof.
  split_machine m.
  destruct stk as [|s stk];
    [intros E; inversion E; subst; now exists []|].
  destruct s;
    try (intros E; unfold dispatch, bind, current_state, case_ws in E;
         cbn in E; apply ws_while_prefix in E; exact E);
    intros E; unfold dispatch, bind, current_state in E; cbn in E.
  all: unfold_arms_in E.
  all: destruct rest as [|c0 [|c1 [|c2 [|c3 [|c4 rest]]]]].
  all: branches_in E.
  all: try discriminate E.
  all: inversion E; subst; clear E; cbn.
  all: give_prefix.
Qed.

Lemma run_prefix (m m' : machine D) :
  run m = Val tt m' -> exists pre, p m = pre ++ p m'.
Proof.
  remember (measure m) as n eqn:Hn.
  revert m m' Hn. induction n as [n IH] using lt_wf_ind.
  intros m m' Hn E.
  rewrite run_step in E.
  destruct (dispatch m) as [fl m1|f] eqn:Ed; [|discriminate].
  pose proof Ed as E1. apply dispatch_prefix in E1. destruct E1 as [pre1 E1].
  destruct fl.
  - apply dispatch_decreases in Ed.
    destruct (IH (measure m1) ltac:(lia) m1 m' eq_refl E) as [pre2 E2].
    exists (pre1 ++ pre2). now rewrite <- app_assoc, <- E2.
  - inversion E; subst. eauto.
  - inversion E; subst. eauto.
Qed.

Lemma ws_while_advances (rest : list ascii) :
  forall stk (d : D) e l fl m1,
    ws_while rest (Machine stk d rest e l) = Val fl m1 ->
    adv_total (log m1) + length (p m1) = adv_total l + length rest.
Proof.
  induction rest as [|c rest IH]; intros stk d e l fl m1 E.
  - now inversion E; subst.
  - cbn in E. destruct (is_ws c); cbn in E.
    + unfold bind, advance in E. cbn in E.
      apply IH in E. cbn in E |- *. lia.
    + unfold bind, pop_state in E. cbn in E.
      destruct stk as [|s stk]; [discriminate|].
      now inversion E; subst.
Qed.

Lemma dispatch_advances (m m1 : machine D) (fl : flow) :
  dispatch m = Val fl m1 ->
  adv_total (log m1) + length (p m1) = adv_total (log m) + length (p m).
Proof.
  split_machine m.
  destruct stk as [|s stk];
    [intros E; now inversion E; subst|].
  destruct s;
    try (intros E; unfold dispatch, bind, current_state, case_ws in E;
         cbn in E; apply ws_while_advances in E; exact E);
    intros E; unfold dispatch, bind, current_state in E; cbn in E.
  all: unfold_arms_in E.
  all: destruct rest as [|c0 [|c1 [|c2 [|c3 [|c4 rest]]]]].
  all: branches_in E.
  all: try discriminate E.
  all: inversion E; subst; clear E; cbn; lia.
Qed.

Lemma run_advances (m m' : machine D) :
  run m = Val tt m' ->
  adv_total (log m') + length (p m') = adv_total (log m) + length (p m).
Proof.
  remember (measure m) as n eqn:Hn.
  revert m m' Hn. induction n as [n IH] using lt_wf_ind.
  intros m m' Hn E.
  rewrite run_step in E.
  destruct (dispatch m) as [fl m1|f] eqn:Ed; [|discriminate].
  pose proof Ed as E1. apply dispatch_advances in E1.
  destruct fl.
  - apply dispatch_decreases in Ed.
    rewrite <- E1. eapply (IH (measure m1)); eauto. lia.
  - now inversion E; subst.
  - now inversion E; subst.
Qed.

(** X4. When [write] returns, what is left at the cursor is a suffix of
    the chunk, and the advances of the cursor made during the call add up
    to exactly the number of bytes in front of that suffix: the cursor
    only moves forward and is never moved past the end of the chunk. *)
Theorem write_leaves_a_suffix (buffer : list ascii) (m m' : machine D) :
  write buffer m = Val tt m' ->
  exists consumed,
    buffer = consumed ++ p m' /\
    adv_total (log m') = adv_total (log m) + length consumed.
Proof.
  intros E. rewrite write_run in E.
  assert (G : run (armed buffer m) = Val tt m' ->
              exists consumed,
                buffer = consumed ++ p m' /\
                adv_total (log m') = adv_total (log m) + length consumed).
  { intros Er. pose proof Er as Ea. apply run_advances in Ea.
    apply run_prefix in Er. destruct Er as [consumed Hc].
    cbn in Hc, Ea. exists consumed. split; [exact Hc|].
    rewrite Hc, length_app in Ea. lia. }
  destruct (st_stack_ m) as [|s stk]; [discriminate|].
  destruct s; try discriminate; auto.
Qed.

Lemma run_rests (m m' : machine D) :
  steady m -> run m = Val tt m' -> ec m' = success ->
  p m' = [] \/ parked m' \/ st_stack_ m' = [].
Proof.
  remember (measure m) as n eqn:Hn.
  revert m m' Hn. induction n as [n IH] using lt_wf_ind.
  intros m m' Hn Hst E Hec.
  rewrite run_step in E.
  destruct (dispatch m) as [fl m1|f] eqn:Ed; [|discriminate].
  assert (Hgo : fl = goto_loop ->
                p m' = [] \/ parked m' \/ st_stack_ m' = []).
  { intros ->. pose proof (dispatch_steady Hst Ed) as [_ S1].
    apply dispatch_decreases in Ed.
    eapply (IH (measure m1)); eauto. lia. }
  destruct (dispatch_more [] Hst Ed)
    as [[_ Hk]|[(-> & Hp & _)|[_ ->]]]; auto.
  - destruct fl; auto; inversion E; subst m1;
      destruct Hk as [?|[Hk|[Hk|Hk]]]; try discriminate; auto;
      rewrite Hec in Hk; discriminate.
  - inversion E; subst. auto.
Qed.

(** X5. From a stack that a built parser can have, [write] returns
    without an error only when the chunk is used up, or in a placeholder
    state, or with the stack empty. *)
Theorem write_rests_only_when_done (buffer : list ascii)
  (m m' : machine D) :
  reach (st_stack_ m) ->
  write buffer m = Val tt m' ->
  ec m' = success ->
  p m' = [] \/ parked m' \/ st_stack_ m' = [].
Proof.
  intros R E Hec. rewrite write_run in E.
  assert (Hst : steady (armed buffer m)) by (split; [exact R|now left]).
  destruct (st_stack_ m) as [|s stk]; [discriminate|].
  destruct s; try discriminate; eapply run_rests; eauto.
Qed.

(** X6. The placeholder states [array_], [string] and [number] are dead
    ends: [write] consumes nothing of any chunk, calls nothing, leaves
    the stack as it is and reports no error, and [write_eof] then reports
    a syntax error. *)
Theorem placeholder_is_a_dead_end (m : machine D) (buffer : list ascii) :
  parked m ->
  exists m',
    write buffer m = Val tt m' /\
    st_stack_ m' = st_stack_ m /\ impl m' = impl m /\
    p m' = buffer /\ ec m' = success /\
    calls (log m') = calls (log m) /\
    parked m' /\
    exists m'', write_eof m' = Val tt m'' /\ ec m'' = syntax.
Proof.
  intros Hp. split_machine m. unfold parked in Hp. cbn in Hp.
  destruct stk as [|s stk]; [contradiction|].
  destruct s; try contradiction;
    (eexists; split;
     [rewrite write_run; cbn [st_stack_]; rewrite run_step; reflexivity|];
     cbn; repeat split; eexists; split; reflexivity).
Qed.

Lemma write_buffers_cons (c : list ascii) (cs : list (list ascii))
  (m : machine D) :
  write_buffers (c :: cs) m =
  match write c m with
  | Val _ m1 => if is_error (ec m1) then Val tt m1 else write_buffers cs m1
  | Crash f => Crash f
  end.
Proof.
  cbn [write_buffers]. unfold bind at 1.
  destruct (write c m) as [[] m1|f]; [|reflexivity].
  unfold bind, failed. now destruct (is_error (ec m1)).
Qed.

(** X7. Feeding a sequence of buffers that is cut in two, the first part
    not empty, is feeding the first part and then, unless it failed, the
    second. *)
Theorem write_buffers_app (a b : list (list ascii)) (m : machine D) :
  a <> [] ->
  write_buffers (a ++ b) m =
  match write_buffers a m with
  | Val _ m1 => if is_error (ec m1) then Val tt m1 else write_buffers b m1
  | Crash f => Crash f
  end.
Proof.
  revert m. induction a as [|c a IH]; intros m Hne; [contradiction|].
  cbn [app]. rewrite !write_buffers_cons.
  destruct (write c m) as [[] m1|f]; [|reflexivity].
  destruct (is_error (ec m1)) eqn:Ee; [now rewrite Ee|].
  destruct a as [|c2 a]; [cbn; now rewrite Ee|].
  apply IH. discriminate.
Qed.

Lemma dispatch_depth (m m1 : machine D) (fl : flow) :
  steady m -> length (st_stack_ m) <= 6 ->
  dispatch m = Val fl m1 -> length (st_stack_ m1) <= 6.
Proof.
  intros [R Hec] Hl. split_machine m. cbn in R, Hec, Hl.
  inversion R as [|below|below|below| | | | | | | |s Hs]; subst.
  12: destruct s; try discriminate Hs.
  1-4: intros E; inversion E; subst; exact Hl.
  3,6,7: intros E; unfold dispatch, bind, current_state, case_ws in E;
         cbn in E; apply ws_while_reach in E;
         destruct E as [[-> | ->] _]; cbn; lia.
  all: intros E; unfold dispatch, bind, current_state in E; cbn in E.
  all: unfold_arms_in E.
  all: destruct rest as [|c0 [|c1 [|c2 [|c3 [|c4 rest]]]]].
  all: branches_in E.
  all: try discriminate E.
  all: inversion E; subst; clear E; cbn; lia.
Qed.

Lemma run_depth (m m' : machine D) :
  steady m -> length (st_stack_ m) <= 6 ->
  run m = Val tt m' -> length (st_stack_ m') <= 6.
Proof.
  remember (measure m) as n eqn:Hn.
  revert m m' Hn. induction n as [n IH] using lt_wf_ind.
  intros m m' Hn Hst Hl E.
  rewrite run_step in E.
  destruct (dispatch m) as [fl m1|f] eqn:Ed; [|discriminate].
  pose proof Ed as Hl1. apply dispatch_depth in Hl1; auto.
  destruct fl.
  - pose proof (dispatch_steady Hst Ed) as [_ S1].
    apply dispatch_decreases in Ed.
    eapply (IH (measure m1)); eauto. lia.
  - now inversion E; subst.
  - now inversion E; subst.
Qed.

Lemma write_buffers_depth (buffers : list (list ascii)) :
  forall m m' : machine D,
    reach (st_stack_ m) -> length (st_stack_ m) <= 6 ->
    write_buffers buffers m = Val tt m' ->
    length (st_stack_ m') <= 6.
Proof.
  induction buffers as [|b bs IH]; intros m m' R Hl E.
  - now inversion E; subst.
  - cbn [write_buffers] in E. unfold bind at 1 in E.
    destruct (write b m) as [[] m1|f] eqn:Ew; [|discriminate].
    assert (Hl1 : length (st_stack_ m1) <= 6).
    { rewrite write_run in Ew.
      assert (Hst : steady (armed b m)) by (split; [exact R|now left]).
      destruct (st_stack_ m) as [|s stk] eqn:Es; [discriminate|].
      destruct s; try discriminate; eapply run_depth; eauto;
        cbn; rewrite Es; exact Hl. }
    apply write_reach in Ew; [|exact R].
    unfold failed, bind in E. cbn in E.
    destruct (is_error (ec m1)).
    + now inversion E; subst.
    + eapply IH; eauto.
Qed.

(** X8. Whatever a built parser is fed, its continuation stack never
    holds more than six states. *)
Theorem stack_never_exceeds_six (buffers : list (list ascii)) (d : D)
  (m' : machine D) :
  write_buffers buffers (basic_parser d) = Val tt m' ->
  length (st_stack_ m') <= 6.
Proof.
  apply write_buffers_depth; [constructor|cbn; lia].
Qed.

Lemma ws_while_skip (w : list ascii) :
  forallb is_ws w = true ->
  forall stk (d : D) rest e l,
  exists l',
    ws_while (w ++ rest) (Machine stk d (w ++ rest) e l)
    = ws_while rest (Machine stk d rest e l') /\
    calls l' = calls l.
Proof.
  induction w as [|c w IH]; intros Hw stk d rest e l.
  - exists l. split; reflexivity.
  - cbn in Hw. apply andb_prop in Hw. destruct Hw as [Hc Hw].
    destruct (IH Hw stk d rest e (Adv 1 :: l)) as (l' & E & Hl).
    exists l'. split; [|exact Hl].
    cbn. rewrite Hc. cbn. unfold bind, advance. cbn. exact E.
Qed.

Lemma run_relog (stk : list state.t) (d : D) r e (l1 l2 : list action)
  (m1 : machine D) :
  run (Machine stk d r e l1) = Val tt m1 ->
  exists m2,
    run (Machine stk d r e l2) = Val tt m2 /\
    st_stack_ m2 = st_stack_ m1 /\ impl m2 = impl m1 /\
    ec m2 = ec m1 /\ p m2 = p m1 /\
    (calls l2 = calls l1 -> calls (log m2) = calls (log m1)).
Proof.
  change (Machine stk d r e l1) with (relog l1 (Machine stk d r e [])).
  change (Machine stk d r e l2) with (relog l2 (Machine stk d r e [])).
  rewrite !log_free_run.
  destruct (run (Machine stk d r e [])) as [[] m0|f]; [|discriminate].
  cbn. intros E. inversion E; subst m1. clear E.
  eexists. split; [reflexivity|]. cbn. repeat split.
  intros Hc. now rewrite !calls_app, Hc.
Qed.

(** The first two turns of a parser just built. *)
Lemma run_built (d : D) (buffer : list ascii) :
  write buffer (basic_parser d) =
  run (Machine [state.ws; state.value; state.ws] d buffer success
         [Push state.ws; Push state.value; Replace state.ws;
          Replace state.element; Assign success]).
Proof.
  rewrite write_run. cbn [st_stack_ basic_parser].
  rewrite (run_step (armed buffer (basic_parser d))).
  change (dispatch (armed buffer (basic_parser d)))
    with (Val (D := D) goto_loop
            (Machine [state.element] d buffer success
               [Replace state.element; Assign success])).
  cbv iota. rewrite run_step at 1.
  reflexivity.
Qed.

(** X9. An input of whitespace only, the empty chunk included, is
    accepted by [write_eof] although no value was seen and the sink was
    never called; [write_eof] right after the constructor is a syntax
    error. *)
Theorem blank_input_is_accepted (d : D) :
  (forall w,
     forallb is_ws w = true ->
     exists m',
       feed_and_finish [w] (basic_parser d) = Val tt m' /\
       ec m' = success /\ impl m' = d /\ calls (log m') = [] /\
       st_stack_ m' = [state.ws; state.value; state.ws]) /\
  (exists m',
     feed_and_finish [] (basic_parser d) = Val tt m' /\
     ec m' = syntax).
Proof.
  split.
  - intros w Hw. rewrite feed_single, run_built, run_step.
    unfold dispatch at 1, bind, current_state, case_ws. cbn [st_stack_ p].
    rewrite <- (app_nil_r w).
    destruct (ws_while_skip w Hw
                [state.ws; state.value; state.ws] d [] success
                [Push state.ws; Push state.value; Replace state.ws;
                 Replace state.element; Assign success])
      as (l' & -> & Hl).
    cbn. eexists. split; [reflexivity|]. cbn. rewrite Hl. auto.
  - eexists. split; reflexivity.
Qed.

Lemma ws_while_lone (r : list ascii) :
  forall (d : D) e l,
  exists fl m',
    ws_while r (Machine [state.ws] d r e l) = Val fl m' /\
    impl m' = d /\ ec m' = e /\ calls (log m') = calls l /\
    ((forallb is_ws r = true /\ fl = break_ /\
      st_stack_ m' = [state.ws]) \/
     (forallb is_ws r = false /\ fl = goto_loop /\ st_stack_ m' = [])).
Proof.
  induction r as [|c r IH]; intros d e l.
  - do 2 eexists. split; [reflexivity|]. cbn. auto 8.
  - cbn. destruct (is_ws c); cbn.
    + unfold bind, advance. cbn.
      destruct (IH d e (Adv 1 :: l)) as (fl & m' & E & Hi & He & Hc & Hs).
      exists fl, m'. split; [exact E|]. cbn in Hc. auto.
    + do 2 eexists. split; [reflexivity|]. cbn. auto 8.
Qed.

(** X10. Once the top-level value is over and only the trailing
    whitespace state is left, every chunk passes without an error and
    without a sink call; the state stays when the chunk is whitespace
    only, and the stack is emptied otherwise. *)
Theorem after_the_value_every_chunk_passes (d : D) (buffer p0 : list ascii)
  (e0 : error_code) (l : list action) :
  exists m',
    write buffer (Machine [state.ws] d p0 e0 l) = Val tt m' /\
    ec m' = success /\ impl m' = d /\ calls (log m') = calls l /\
    st_stack_ m' = if forallb is_ws buffer then [state.ws] else [].
Proof.
  rewrite write_run. cbn [st_stack_]. rewrite run_step.
  unfold dispatch at 1, bind, current_state, case_ws, armed.
  cbn [st_stack_ p impl log].
  destruct (ws_while_lone buffer d success (Assign success :: l))
    as (fl & m' & -> & Hi & He & Hc & [(-> & -> & Hs)|(-> & -> & Hs)]).
  - exists m'. auto.
  - exists m'. rewrite run_step.
    destruct m' as [s1 d1 p1 e1 l1]. cbn in Hs. subst s1. cbn. auto.
Qed.

(** X11. Whitespace in front of the input of a new parser changes
    nothing of the outcome of [write]: the same stack, derived object,
    error, bytes left and sink calls. *)
Theorem leading_whitespace_is_skipped (d : D) (w rest : list ascii)
  (m1 : machine D) :
  forallb is_ws w = true ->
  write rest (basic_parser d) = Val tt m1 ->
  exists m2,
    write (w ++ rest) (basic_parser d) = Val tt m2 /\
    st_stack_ m2 = st_stack_ m1 /\ impl m2 = impl m1 /\
    ec m2 = ec m1 /\ p m2 = p m1 /\
    calls (log m2) = calls (log m1).
Proof.
  intros Hw E. rewrite run_built in E |- *.
  set (l0 := [Push state.ws; Push state.value; Replace state.ws;
              Replace state.element; Assign success]) in *.
  destruct (ws_while_skip w Hw [state.ws; state.value; state.ws] d rest
              success l0) as (l' & Es & Hl).
  assert (Er : run (Machine [state.ws; state.value; state.ws] d
                      (w ++ rest) success l0)
               = run (Machine [state.ws; state.value; state.ws] d
                        rest success l')).
  { apply run_same. exact Es. }
  rewrite Er.
  pose proof E as E2. apply run_relog with (l2 := l') in E2.
  destruct E2 as (m2 & E2 & Hs & Hi & He & Hp & Hc).
  exists m2. repeat split; auto.
Qed.

Lemma run_closing_brace (d1 d2 : D) (e2 : error_code) (l : list action) :
  on_object_end d1 success = (d2, e2) ->
  exists m',
    run (Machine [state.object; state.ws] d1 ["}"] success l) = Val tt m' /\
    impl m' = d2 /\ ec m' = e2 /\
    calls (log m') = calls l ++ [(on_object_end_, e2)] /\
    (is_error e2 = false -> st_stack_ m' = [state.ws] /\ p m' = []).
Proof.
  intros Hend. destruct (is_error e2) eqn:Ee.
  - eexists. split; [erewrite run_stop; [reflexivity|eval_turn|discriminate]|].
    cbn. repeat split; discriminate.
  - eexists. split.
    + erewrite run_goto by eval_turn.
      erewrite run_stop; [reflexivity|eval_turn|discriminate].
    + cbn. auto.
Qed.

(** X12. An object with nothing but whitespace between its braces: when
    [on_object_begin] accepts, the sink is called exactly twice, the
    error of [write] is the one of [on_object_end], and without an error
    the whole chunk is consumed and only the trailing whitespace state is
    left. *)
Theorem object_with_blanks (d d1 d2 : D) (e2 : error_code)
  (w : list ascii) :
  forallb is_ws w = true ->
  on_object_begin d success = (d1, success) ->
  on_object_end d1 success = (d2, e2) ->
  exists m',
    write ("{" :: w ++ ["}"]) (basic_parser d) = Val tt m' /\
    calls (log m') = [(on_object_begin_, success); (on_object_end_, e2)] /\
    impl m' = d2 /\ ec m' = e2 /\
    (is_error e2 = false -> st_stack_ m' = [state.ws] /\ p m' = []).
Proof.
  intros Hw Hbegin Hend. rewrite run_built.
  erewrite run_goto by eval_turn.
  erewrite run_goto by eval_turn.
  destruct w as [|c w].
  - pose proof Hend as X.
    apply run_closing_brace
      with (l := [Call on_object_begin_ success; Replace state.object;
                  Adv 1; Pop; Push state.ws; Push state.value;
                  Replace state.ws; Replace state.element;
                  Assign success]) in X.
    destruct X as (m' & E & Hi & He & Hc & Hs).
    exists m'. split; [exact E|]. auto.
  - cbn in Hw. apply andb_prop in Hw. destruct Hw as [Hc Hw].
    erewrite run_goto by eval_turn.
    set (l1 := Push state.ws :: Adv 1 :: Call on_object_begin_ success :: _).
    destruct (ws_while_skip w Hw [state.ws; state.object; state.ws] d1
                ["}"] success l1) as (l' & Es & Hl).
    erewrite run_goto; [|unfold dispatch, bind, current_state, case_ws;
                          cbn [st_stack_ p]; rewrite Es; reflexivity].
    pose proof Hend as X.
    apply run_closing_brace with (l := Pop :: l') in X.
    destruct X as (m' & E & Hi & He & Hc' & Hs).
    exists m'. split; [exact E|]. cbn in Hc'. rewrite Hl in Hc'.
    auto.
Qed.

Lemma ws_while_head (rest : list ascii) :
  forall stk (d : D) e l fl m1,
    ws_while rest (Machine stk d rest e l) = Val fl m1 ->
    hd (Assign success) l <> Assign syntax ->
    hd (Assign success) (log m1) <> Assign syntax.
Proof.
  induction rest as [|c rest IH]; intros stk d e l fl m1 E Hl.
  - inversion E; subst. exact Hl.
  - cbn in E. destruct (is_ws c); cbn in E.
    + unfold bind, advance in E. cbn in E. apply IH in E; auto.
      cbn. discriminate.
    + unfold bind, pop_state in E. cbn in E.
      destruct stk as [|s stk]; [discriminate|].
      inversion E; subst. cbn. discriminate.
Qed.

(** A turn that did not begin on a syntax error either does not end on
    one, or returns with a byte still at the cursor. *)
Lemma dispatch_rejects_in_place (m m1 : machine D) (fl : flow) :
  hd (Assign success) (log m) <> Assign syntax ->
  dispatch m = Val fl m1 ->
  hd (Assign success) (log m1) <> Assign syntax \/
  (fl = return_ /\ ec m1 = syntax /\ p m1 <> []).
Proof.
  split_machine m. cbn [log].
  destruct stk as [|s stk];
    [intros Hl E; inversion E; subst; now left|].
  intros Hl.
  destruct s;
    try (intros E; left; unfold dispatch, bind, current_state, case_ws in E;
         cbn in E; eapply ws_while_head; [exact E|exact Hl]);
    intros E; unfold dispatch, bind, current_state in E; cbn in E.
  all: unfold_arms_in E.
  all: destruct rest as [|c0 [|c1 [|c2 [|c3 [|c4 rest]]]]].
  all: branches_in E.
  all: try discriminate E.
  all: inversion E; subst; clear E; cbn.
  all: try (left; first [exact Hl | discriminate]).
  all: right; repeat split; discriminate.
Qed.

Lemma run_rejects_in_place (m m' : machine D) :
  hd (Assign success) (log m) <> Assign syntax ->
  run m = Val tt m' ->
  hd (Assign success) (log m') = Assign syntax ->
  ec m' = syntax /\ p m' <> [].
Proof.
  remember (measure m) as n eqn:Hn.
  revert m m' Hn. induction n as [n IH] using lt_wf_ind.
  intros m m' Hn Hl E Hs.
  rewrite run_step in E.
  destruct (dispatch m) as [fl m1|f] eqn:Ed; [|discriminate].
  pose proof Ed as Hd. apply dispatch_rejects_in_place in Hd; [|exact Hl].
  destruct Hd as [Hl1|(-> & He & Hp)].
  - destruct fl.
    + apply dispatch_decreases in Ed.
      eapply (IH (measure m1)); eauto. lia.
    + inversion E; subst. contradiction.
    + inversion E; subst. contradiction.
  - inversion E; subst. auto.
Qed.

(** X13. When the last effect of a call of [write] is the assignment of
    the syntax error, at least one byte of the chunk is left at the
    cursor: the engine never consumes the byte it rejects. *)
Theorem syntax_error_leaves_the_byte (buffer : list ascii)
  (m m' : machine D) :
  write buffer m = Val tt m' ->
  hd (Assign success) (log m') = Assign syntax ->
  ec m' = syntax /\ p m' <> [].
Proof.
  intros E Hs. rewrite write_run in E.
  destruct (st_stack_ m) as [|s stk]; [discriminate|].
  destruct s; try discriminate;
    (eapply run_rejects_in_place; [|exact E|exact Hs]);
    cbn; discriminate.
Qed.

End Further.

(** ** Witnesses of the further properties *)

(** ["tr"]: both bytes are consumed, in two advances of one byte. *)
Lemma write_leaves_a_suffix_witness :
  exists m' consumed,
    write (bytes "tr") (basic_parser tt) = Val tt m' /\
    bytes "tr" = consumed ++ p m' /\
    adv_total (log m') = length consumed.
Proof.
  destruct (write (bytes "tr") (basic_parser tt)) as [[] m'|f] eqn:E;
    [|vm_compute in E; discriminate].
  destruct (@write_leaves_a_suffix unit quiet (bytes "tr")
              (basic_parser tt) m' E) as (consumed & Hc & Ha).
  exists m', consumed. split; [reflexivity|]. split; [exact Hc|exact Ha].
Defined.

(** ["tr"] again: the call comes back because the chunk ran out. *)
Lemma write_rests_only_when_done_witness :
  exists m',
    write (bytes "tr") (basic_parser tt) = Val tt m' /\
    (p m' = [] \/ parked m' \/ st_stack_ m' = []).
Proof.
  assert (E : write (bytes "tr") (basic_parser tt)
              = Val tt (Machine [state.true_2; state.ws] tt [] success
                          [Replace state.true_2; Adv 1;
                           Replace state.true_1; Adv 1; Pop;
                           Push state.ws; Push state.value;
                           Replace state.ws; Replace state.element;
                           Assign success])).
  { vm_compute. reflexivity. }
  eexists. split; [exact E|].
  apply (@write_rests_only_when_done unit quiet (bytes "tr")
           (basic_parser tt) _ (reach_json) E eq_refl).
Defined.

(** The parser after an opening bracket. *)
Lemma placeholder_is_a_dead_end_witness :
  exists m',
    write (bytes "1]") (Machine [state.array_; state.ws] tt [] success [])
    = Val tt m' /\
    st_stack_ m' = [state.array_; state.ws] /\ p m' = bytes "1]".
Proof.
  destruct (@placeholder_is_a_dead_end unit quiet
              (Machine [state.array_; state.ws] tt [] success [])
              (bytes "1]") I)
    as (m' & E & Hs & _ & Hp & _).
  exists m'. auto.
Defined.

(** Two buffers and then one. *)
Lemma write_buffers_app_witness :
  write_buffers ([bytes "t"; bytes "r"] ++ [bytes "ue"]) (basic_parser tt)
  = match write_buffers [bytes "t"; bytes "r"] (basic_parser tt) with
    | Val _ m1 =>
        if is_error (ec m1) then Val tt m1
        else write_buffers [bytes "ue"] m1
    | Crash f => Crash f
    end.
Proof.
  apply (@write_buffers_app unit quiet [bytes "t"; bytes "r"]
           [bytes "ue"] (basic_parser tt)).
  discriminate.
Defined.

(** A member begins: six states, the bound. *)
Lemma stack_never_exceeds_six_witness :
  exists m',
    write_buffers [bytes "{"; bytes "x"] (basic_parser tt) = Val tt m' /\
    length (st_stack_ m') = 6 /\ length (st_stack_ m') <= 6.
Proof.
  assert (E : exists m',
             write_buffers [bytes "{"; bytes "x"] (basic_parser tt)
             = Val tt m' /\ length (st_stack_ m') = 6).
  { eexists. split; [vm_compute; reflexivity|reflexivity]. }
  destruct E as (m' & E & Hl). exists m'. split; [exact E|].
  split; [exact Hl|].
  apply (@stack_never_exceeds_six unit quiet [bytes "{"; bytes "x"] tt m' E).
Defined.

(** A blank line. *)
Lemma blank_input_is_accepted_witness :
  exists m',
    feed_and_finish [[" "; "010"]] (basic_parser tt) = Val tt m' /\
    ec m' = success /\ calls (log m') = [].
Proof.
  destruct (proj1 (@blank_input_is_accepted unit quiet tt) [" "; "010"]
              eq_refl) as (m' & E & He & _ & Hc & _).
  exists m'. auto.
Defined.

(** Two spaces in front of [null]. *)
Lemma leading_whitespace_is_skipped_witness :
  exists m1 m2,
    write (bytes "null") (basic_parser tt) = Val tt m1 /\
    write (bytes "  " ++ bytes "null") (basic_parser tt) = Val tt m2 /\
    st_stack_ m2 = st_stack_ m1 /\ ec m2 = ec m1 /\
    calls (log m2) = calls (log m1).
Proof.
  destruct (write (bytes "null") (basic_parser tt)) as [[] m1|f] eqn:E;
    [|vm_compute in E; discriminate].
  destruct (@leading_whitespace_is_skipped unit quiet tt (bytes "  ")
              (bytes "null") m1 eq_refl E)
    as (m2 & E2 & Hs & _ & He & _ & Hc).
  exists m1, m2. auto.
Defined.

(** An object with a space and a tab inside. *)
Lemma object_with_blanks_witness :
  exists m',
    write ("{" :: [" "; "009"] ++ ["}"]) (basic_parser tt) = Val tt m' /\
    calls (log m')
    = [(on_object_begin_, success); (on_object_end_, success)] /\
    st_stack_ m' = [state.ws].
Proof.
  destruct (@object_with_blanks unit quiet tt tt tt success [" "; "009"]
              eq_refl eq_refl eq_refl)
    as (m' & E & Hc & _ & _ & Hs).
  exists m'. split; [exact E|]. split; [exact Hc|]. now apply Hs.
Defined.

(** ["nul!"]: the fast path rejects the literal at its first byte. *)
Lemma syntax_error_leaves_the_byte_witness :
  exists m',
    write (bytes "nul!") (basic_parser tt) = Val tt m' /\
    ec m' = syntax /\ p m' <> [].
Proof.
  assert (E : exists m',
             write (bytes "nul!") (basic_parser tt) = Val tt m' /\
             hd (Assign success) (log m') = Assign syntax).
  { eexists. split; [vm_compute; reflexivity|reflexivity]. }
  destruct E as (m' & E & Hh). exists m'. split; [exact E|].
  apply (@syntax_error_leaves_the_byte unit quiet (bytes "nul!")
           (basic_parser tt) m' E Hh).
Defined.

(** * Running out of bytes *)

Section Exhaustion.
Context {D : Type} `{Derived D}.





End Exhaustion.

